(** * RegexScanner: a shallow embedding of [regex_search.py]

    The program compiles a regular expression, reads lines from the files
    named on the command line (or from standard input), runs
    [pattern.finditer] over every line and hands the matches to one of four
    output formatters.

    Conventions of the embedding.
    - A Python [str] is a list of characters; a character is a code point
      in the range 0..255 (type [ascii]).
    - Offsets, line numbers and repetition counts are natural numbers.  The
      only subtractions of the program are [match.start() - last_index] and
      [match.end() - match.start()], used as repetition counts of [str * n]
      and as slice bounds; Python yields the empty string for a count or a
      slice width that is not positive, which is what truncated subtraction
      gives.
    - [print], [open], [exit] and the append to [json_output_file.json] act
      on an explicit [World]; [exit()] is the exception [SystemExit(None)].
    - The [re] module is modelled for a fragment of its pattern language,
      after CPython 3.7 and later ([sre_parse], [_sre.c]).  *)

From Stdlib Require Import String Ascii DecimalString.
From Stdlib Require Import List Arith Lia Bool ZArith.
Import ListNotations.

(** ** Python strings *)

Abbreviation str := (list ascii) (only parsing).

Definition of_string (x : string) : str := list_ascii_of_string x.
Coercion of_string : string >-> list.

Local Open Scope string_scope.
Local Open Scope list_scope.
Local Open Scope nat_scope.

Definition newline : ascii := ascii_of_nat 10.
Definition escape_char : ascii := ascii_of_nat 27.
Definition quote_char : ascii := ascii_of_nat 34.
Definition backslash : ascii := ascii_of_nat 92.

(** [line[a:b]] for offsets [a], [b] that are not negative. *)
Definition slice (line : str) (a b : nat) : str := firstn (b - a) (skipn a line).

(** [line[a:]] *)
Definition slice_from (line : str) (a : nat) : str := skipn a line.

(** [c * n] for a one-character string [c]. *)
Definition str_mul (c : ascii) (n : nat) : str := repeat c n.

(** [str(n)], as the f-strings of the program format an integer. *)
Definition str_of_nat (n : nat) : str :=
  of_string (NilZero.string_of_uint (Nat.to_uint n)).

(** [line.replace("\n", "")] *)
Definition remove_newlines (line : str) : str :=
  filter (fun c => negb (Ascii.eqb c newline)) line.

(** ** The [re] module: patterns *)

Module Re.

(** The fragment of the pattern language that is modelled. *)
Inductive regex : Type :=
| Empty                                  (* the empty pattern *)
| Lit (c : ascii)                        (* a literal character *)
| Any                                    (* .  *)
| Digit                                  (* \d *)
| Word                                   (* \w *)
| Bol                                    (* ^  *)
| Eol                                    (* $  *)
| Boundary                               (* \b *)
| Seq (r1 r2 : regex)                    (* r1 r2 *)
| Alt (r1 r2 : regex)                    (* r1|r2 *)
| Star (r : regex)                       (* r*, greedy *)
| Plus (r : regex)                       (* r+, greedy *)
| Opt (r : regex)                        (* r?, greedy *)
| Group (capturing : bool) (r : regex).  (* (r) and (?:r) *)

Definition in_range (lo hi : nat) (c : ascii) : bool :=
  (lo <=? nat_of_ascii c) && (nat_of_ascii c <=? hi).

(** [\d] on code points below 256: the decimal digits. *)
Definition is_digit (c : ascii) : bool := in_range 48 57 c.

(** [\w] on code points below 256: alphanumeric characters and the
    underscore. *)
Definition is_word (c : ascii) : bool :=
  in_range 48 57 c || in_range 65 90 c || in_range 97 122 c
  || Nat.eqb (nat_of_ascii c) 95
  || existsb (Nat.eqb (nat_of_ascii c)) [170; 178; 179; 181; 185; 186; 188; 189; 190]
  || in_range 192 214 c || in_range 216 246 c || in_range 248 255 c.

Section Matcher.

Variable line : str.

(** One character of the line at offset [i], tested by [p]. *)
Definition step_char (p : ascii -> bool) (i : nat) (k : nat -> option nat) : option nat :=
  match nth_error line i with
  | Some c => if p c then k (S i) else None
  | None => None
  end.

Definition word_at (i : nat) : bool :=
  match nth_error line i with Some c => is_word c | None => false end.

(** [\b]: the characters on the two sides differ in being word characters. *)
Definition at_boundary (i : nat) : bool :=
  negb (Bool.eqb (match i with 0 => false | S j => word_at j end) (word_at i)).

(** [$]: the end of the line, or just before a newline that ends it. *)
Definition at_end (i : nat) : bool :=
  (i =? length line)
  || ((S i =? length line)
      && match nth_error line i with Some c => Ascii.eqb c newline | None => false end).

(** The greedy repeat ([MAX_UNTIL]): at offset [i] try one more item, and
    when that fails the rest of the pattern [k].  An item that matched the
    empty string at [i] is not repeated there again, the rest of the
    pattern is tried instead.  Every repetition moves to the right, so
    [fuel] of at least [length line - i] is never used up. *)
Fixpoint max_until (body : nat -> (nat -> option nat) -> option nat)
    (k : nat -> option nat) (fuel i : nat) {struct fuel} : option nat :=
  match
    body i (fun j =>
              if j =? i then k j
              else match fuel with
                   | 0 => None
                   | S fuel' => max_until body k fuel' j
                   end)
  with
  | Some e => Some e
  | None => k i
  end.

(** The backtracking matcher ([sre_match]) in continuation-passing style:
    [k] is the rest of the pattern, called at the offset reached. *)
Fixpoint sre_match (r : regex) (i : nat) (k : nat -> option nat) {struct r} : option nat :=
  match r with
  | Empty => k i
  | Lit c => step_char (Ascii.eqb c) i k
  | Any => step_char (fun c => negb (Ascii.eqb c newline)) i k
  | Digit => step_char is_digit i k
  | Word => step_char is_word i k
  | Bol => if i =? 0 then k i else None
  | Eol => if at_end i then k i else None
  | Boundary => if at_boundary i then k i else None
  | Seq r1 r2 => sre_match r1 i (fun j => sre_match r2 j k)
  | Alt r1 r2 =>
      match sre_match r1 i k with
      | Some e => Some e
      | None => sre_match r2 i k
      end
  | Star r1 => max_until (sre_match r1) k (length line) i
  | Plus r1 => sre_match r1 i (fun j => max_until (sre_match r1) k (length line) j)
  | Opt r1 =>
      match sre_match r1 i k with
      | Some e => Some e
      | None => k i
      end
  | Group _ r1 => sre_match r1 i k
  end.

(** The end of the pattern ([SUCCESS]) at top level: with [must_advance]
    set, a match that ends where the search started is refused, and the
    matcher backtracks. *)
Definition success (start : nat) (must_advance : bool) (e : nat) : option nat :=
  if must_advance && (e =? start) then None else Some e.

Definition match_at (r : regex) (must_advance : bool) (ptr : nat) : option nat :=
  sre_match r ptr (success ptr must_advance).

End Matcher.

(** [sre_search]: the leftmost offset, from [ptr] on, at which the pattern
    matches, with the end of that match.  [n] offsets remain to the right
    of [ptr]; [must_advance] applies to the first offset tried only. *)
Fixpoint sre_search (line : str) (r : regex) (n : nat) (must_advance : bool) (ptr : nat)
    {struct n} : option (nat * nat) :=
  match match_at line r must_advance ptr with
  | Some e => Some (ptr, e)
  | None =>
      match n with
      | 0 => None
      | S n' => sre_search line r n' false (S ptr)
      end
  end.

(** A match object: [match.start()], [match.end()] and [match.group()]. *)
Record Match : Type := { start : nat; end_ : nat; group : str }.

(** The scanner behind [finditer]: the offset the next search starts from,
    and whether the next match may be empty at that offset. *)
Record Scanner : Type := { pos : nat; must_advance : bool }.

Definition scanner_init : Scanner := {| pos := 0; must_advance := false |}.

(** [scanner.search()]: the next match and the scanner after it, or [None]
    when there are no more matches.  After a match the scanner stands at its
    end; after an empty match it also requires the next match at that same
    offset not to be empty.  (The documentation of [re.finditer]: since
    version 3.7, non-empty matches can start just after a previous empty
    match.) *)
Definition scanner_search (r : regex) (line : str) (sc : Scanner) : option (Match * Scanner) :=
  match sre_search line r (length line - pos sc) (must_advance sc) (pos sc) with
  | Some (s, e) =>
      Some ({| start := s; end_ := e; group := slice line s e |},
            {| pos := e; must_advance := e =? s |})
  | None => None
  end.

(** [iter(scanner.search, None)], run for at most [fuel] calls of
    [scanner.search]; [None] when the calls are used up before the scanner
    reports the end. *)
Fixpoint scan (r : regex) (line : str) (fuel : nat) (sc : Scanner) {struct fuel}
    : option (list Match) :=
  match fuel with
  | 0 => None
  | S fuel' =>
      match scanner_search r line sc with
      | None => Some []
      | Some (m, sc') =>
          match scan r line fuel' sc' with
          | Some ms => Some (m :: ms)
          | None => None
          end
      end
  end.

(** What is left for the scanner to do: it shrinks with every match. *)
Definition scanner_measure (line : str) (sc : Scanner) : nat :=
  2 * (length line - pos sc) + (if must_advance sc then 0 else 1).

(** [pattern.finditer(line)], consumed to the end. *)
Definition finditer (r : regex) (line : str) : list Match :=
  match scan r line (2 * length line + 2) scanner_init with
  | Some ms => ms
  | None => []
  end.

(** *** [re.compile] *)

(** The result of compiling a pattern text: a pattern, the exception
    [re.error], or a text that uses syntax outside the modelled fragment. *)
Inductive compiled (A : Type) : Type :=
| Compiled (a : A)
| ReError
| Unsupported.
Arguments Compiled {A} a.
Arguments ReError {A}.
Arguments Unsupported {A}.

Definition is_at (r : regex) : bool :=
  match r with Bol | Eol | Boundary => true | _ => false end.

Definition is_repeat (r : regex) : bool :=
  match r with Star _ | Plus _ | Opt _ => true | _ => false end.

(** The items of a sequence, most recent first, as one pattern. *)
Fixpoint sequence (items : list regex) (tail : regex) : regex :=
  match items with
  | [] => tail
  | r :: items' => sequence items' (Seq r tail)
  end.

Definition seq_of (items : list regex) : regex :=
  match items with
  | [] => Empty
  | r :: items' => sequence items' r
  end.

Definition is_alnum_ascii (c : ascii) : bool :=
  in_range 48 57 c || in_range 65 90 c || in_range 97 122 c.

(** An escape [\c]. *)
Definition escape (c : ascii) : compiled regex :=
  if Ascii.eqb c "d" then Compiled Digit
  else if Ascii.eqb c "w" then Compiled Word
  else if Ascii.eqb c "b" then Compiled Boundary
  else if is_alnum_ascii c then Unsupported
  else Compiled (Lit c).

Definition repeat_of (c : ascii) (item : regex) : regex :=
  if Ascii.eqb c "*" then Star item
  else if Ascii.eqb c "+" then Plus item
  else Opt item.

Definition is_repeat_char (c : ascii) : bool :=
  Ascii.eqb c "*" || Ascii.eqb c "+" || Ascii.eqb c "?".

(** [_parse_sub] and [_parse] of [sre_parse]: alternatives separated by [|],
    each a sequence of items that ends at [|], at [)] or with the text. Both
    return the pattern read and the text that is left. *)
Fixpoint parse_sub (fuel : nat) (src : str) {struct fuel} : compiled (regex * str) :=
  match fuel with
  | 0 => Unsupported
  | S fuel' =>
      match parse_seq fuel' src [] with
      | Compiled (r1, rest) =>
          match rest with
          | c :: rest' =>
              if Ascii.eqb c "|" then
                match parse_sub fuel' rest' with
                | Compiled (r2, rest'') => Compiled (Alt r1 r2, rest'')
                | ReError => ReError
                | Unsupported => Unsupported
                end
              else Compiled (r1, rest)
          | [] => Compiled (r1, rest)
          end
      | ReError => ReError
      | Unsupported => Unsupported
      end
  end
with parse_seq (fuel : nat) (src : str) (items : list regex) {struct fuel}
    : compiled (regex * str) :=
  match fuel with
  | 0 => Unsupported
  | S fuel' =>
      match src with
      | [] => Compiled (seq_of items, src)
      | c :: rest =>
          if Ascii.eqb c "|" || Ascii.eqb c ")" then Compiled (seq_of items, src)
          else if Ascii.eqb c backslash then
            match rest with
            | [] => ReError                        (* bad escape (end of pattern) *)
            | e :: rest' =>
                match escape e with
                | Compiled item => parse_seq fuel' rest' (item :: items)
                | ReError => ReError
                | Unsupported => Unsupported
                end
            end
          else if is_repeat_char c then
            match items with
            | [] => ReError                        (* nothing to repeat *)
            | item :: items' =>
                if is_at item then ReError         (* nothing to repeat *)
                else if is_repeat item then ReError (* multiple repeat *)
                else
                  match rest with
                  | c' :: _ =>
                      if Ascii.eqb c' "?" || Ascii.eqb c' "+" then Unsupported
                      else parse_seq fuel' rest (repeat_of c item :: items')
                  | [] => parse_seq fuel' rest (repeat_of c item :: items')
                  end
            end
          else if Ascii.eqb c "." then parse_seq fuel' rest (Any :: items)
          else if Ascii.eqb c "^" then parse_seq fuel' rest (Bol :: items)
          else if Ascii.eqb c "$" then parse_seq fuel' rest (Eol :: items)
          else if Ascii.eqb c "(" then
            let capturing :=
              match rest with
              | c1 :: c2 :: _ => negb (Ascii.eqb c1 "?" && Ascii.eqb c2 ":")
              | _ => true
              end in
            let body := if capturing then rest else skipn 2 rest in
            match rest with
            | c1 :: _ =>
                if Ascii.eqb c1 "?" && capturing then Unsupported
                else
                  match parse_sub fuel' body with
                  | Compiled (r, rest') =>
                      match rest' with
                      | c2 :: rest'' =>
                          if Ascii.eqb c2 ")"
                          then parse_seq fuel' rest'' (Group capturing r :: items)
                          else ReError
                      | [] => ReError              (* missing ), unterminated subpattern *)
                      end
                  | ReError => ReError
                  | Unsupported => Unsupported
                  end
            | [] => ReError                        (* missing ), unterminated subpattern *)
            end
          else if Ascii.eqb c "[" || Ascii.eqb c "{" then Unsupported
          else parse_seq fuel' rest (Lit c :: items)
      end
  end.

(** [re.compile(text)]: the whole text is one pattern; a [)] that is left
    over is an unbalanced parenthesis. *)
Definition compile (text : str) : compiled regex :=
  match parse_sub (2 * length text + 2) text with
  | Compiled (r, []) => Compiled r
  | Compiled (_, _ :: _) => ReError
  | ReError => ReError
  | Unsupported => Unsupported
  end.

End Re.

Import Re.

(** ** [json.dump(data, file, indent=4)] for a list of strings *)

Definition hex_digit (n : nat) : ascii := nth n (of_string "0123456789abcdef") "0"%char.

(** One character inside a JSON string, with [ensure_ascii]. *)
Definition json_escape_char (c : ascii) : str :=
  let n := nat_of_ascii c in
  if Ascii.eqb c quote_char then [backslash; quote_char]
  else if Ascii.eqb c backslash then [backslash; backslash]
  else if n =? 10 then [backslash; "n"%char]
  else if n =? 13 then [backslash; "r"%char]
  else if n =? 9 then [backslash; "t"%char]
  else if n =? 8 then [backslash; "b"%char]
  else if n =? 12 then [backslash; "f"%char]
  else if (32 <=? n) && (n <=? 126) then [c]
  else [backslash; "u"%char; "0"%char; "0"%char; hex_digit (n / 16); hex_digit (n mod 16)].

Definition json_string (x : str) : str :=
  quote_char :: flat_map json_escape_char x ++ [quote_char].

Definition newline_indent : str := newline :: str_mul " " 4.

Definition json_dump (data : list str) : str :=
  match data with
  | [] => of_string "[]"
  | x :: xs =>
      of_string "[" ++ newline_indent ++ json_string x
      ++ flat_map (fun y => of_string "," ++ newline_indent ++ json_string y) xs
      ++ [newline] ++ of_string "]"
  end.

(** ** The world the program acts on *)

(** What the program writes: the text given to standard output, one entry
    for each call of [print]; the content of [json_output_file.json]; the
    names of the files opened for reading, in order. *)
Record World : Type := {
  stdout : list str;
  json_output_file : str;
  opened : list str
}.

(** What the program reads: for a file name the lines that iterating over
    the open file yields, each with its line end, or [None] when there is no
    such file; and the lines of standard input. The input files are taken
    to be other files than [json_output_file.json], which is taken to be
    writable. *)
Record Env : Type := {
  file_system : str -> option (list str);
  stdin : list str
}.

(** How a computation ends: normally, by [SystemExit], or outside the
    modelled fragment of [re]. *)
Inductive outcome (A : Type) : Type :=
| Return (a : A)
| SystemExit (code : option Z)
| Beyond.
Arguments Return {A} a.
Arguments SystemExit {A}.
Arguments Beyond {A}.

Definition Py (A : Type) : Type := World -> outcome A * World.

Definition ret {A : Type} (a : A) : Py A := fun w => (Return a, w).

Definition bind {A B : Type} (c : Py A) (k : A -> Py B) : Py B :=
  fun w =>
    match c w with
    | (Return a, w') => k a w'
    | (SystemExit code, w') => (SystemExit code, w')
    | (Beyond, w') => (Beyond, w')
    end.

Declare Scope py_scope.
Delimit Scope py_scope with py.
Notation "c1 ;; c2" := (bind c1 (fun _ => c2))
  (at level 61, right associativity) : py_scope.
Local Open Scope py_scope.

(** [for x in xs: body(x)] *)
Fixpoint for_each {A : Type} (xs : list A) (body : A -> Py unit) : Py unit :=
  match xs with
  | [] => ret tt
  | x :: xs' => body x ;; for_each xs' body
  end.

(** [print(text, end=e)] *)
Definition print_end (text e : str) : Py unit :=
  fun w => (Return tt, {| stdout := stdout w ++ [text ++ e];
                          json_output_file := json_output_file w;
                          opened := opened w |}).

(** [print(text)] *)
Definition print (text : str) : Py unit := print_end text [newline].

(** [exit()]: raises [SystemExit] with no exit code. *)
Definition exit {A : Type} : Py A := fun w => (SystemExit None, w).

(** [with open("json_output_file.json", "a") as file: file.write(text)] *)
Definition append_json_output_file (text : str) : Py unit :=
  fun w => (Return tt, {| stdout := stdout w;
                          json_output_file := json_output_file w ++ text;
                          opened := opened w |}).

(** [open(file_name, "r")] of a file that exists. *)
Definition open_read (file_name : str) : Py unit :=
  fun w => (Return tt, {| stdout := stdout w;
                          json_output_file := json_output_file w;
                          opened := opened w ++ [file_name] |}).

(** The exit status of the process: [SystemExit(None)] and a normal end are
    status 0. *)
Definition exit_status {A : Type} (o : outcome A) : option Z :=
  match o with
  | Return _ => Some 0%Z
  | SystemExit None => Some 0%Z
  | SystemExit (Some code) => Some code
  | Beyond => None
  end.

(** ** The output formatters *)

(** [DefaultFormatter.format] *)
Definition DefaultFormatter_format (file_name line : str) (line_no : nat)
    (matches : list Match) : Py unit :=
  for_each matches (fun m =>
    print (of_string "file name: " ++ file_name ++ of_string ", line: "
           ++ str_of_nat line_no ++ of_string ", matched_text: " ++ group m)).

(** The body of the loop of [UnderscoreFormatter.format], on the pair
    [(last_index, output)]. *)
Definition underscore_step (st : nat * str) (m : Match) : nat * str :=
  let (last_index, output) := st in
  (end_ m,
   output ++ str_mul " " (start m - last_index) ++ str_mul "^" (end_ m - start m)).

(** [UnderscoreFormatter.format] *)
Definition UnderscoreFormatter_format (file_name line : str) (line_no : nat)
    (matches : list Match) : Py unit :=
  let (last_index, output) := fold_left underscore_step matches (0, []) in
  print line ;; print output.

Definition color_on : str := escape_char :: of_string "[91m".
Definition color_off : str := escape_char :: of_string "[00m".

(** The body of the loop of [ColorFormatter.format], on the pair
    [(last_index, output)]. *)
Definition color_step (line : str) (st : nat * str) (m : Match) : nat * str :=
  let (last_index, output) := st in
  (end_ m,
   output ++ slice line last_index (start m)
   ++ (color_on ++ slice line (start m) (end_ m) ++ color_off)).

(** [ColorFormatter.format] *)
Definition ColorFormatter_format (file_name line : str) (line_no : nat)
    (matches : list Match) : Py unit :=
  let (last_index, output) := fold_left (color_step line) matches (0, []) in
  print_end output [] ;; print (slice_from line last_index).

(** The entry that [MachineFormatter.format] appends to [data] for a match. *)
Definition machine_record (file_name : str) (line_no : nat) (m : Match) : str :=
  file_name ++ of_string ":" ++ str_of_nat line_no ++ of_string ":"
  ++ str_of_nat (start m) ++ of_string ":" ++ group m.

(** [MachineFormatter.format] *)
Definition MachineFormatter_format (file_name line : str) (line_no : nat)
    (matches : list Match) : Py unit :=
  let data := map (machine_record file_name line_no) matches in
  append_json_output_file (json_dump data).

(** ** [RegularExpressionFinder] *)

(** The values that [get_command_line_parameters] returns. *)
Record Args : Type := {
  regular_expression : str;
  arg_files : option (list str);
  arg_underscore : bool;
  arg_color : bool;
  arg_machine : bool
}.

(** The attributes of the object once the pattern is compiled. *)
Record RegularExpressionFinder : Type := {
  pattern : regex;
  files : option (list str);
  underscore : bool;
  color : bool;
  machine : bool
}.

(** [output_formatted_data] *)
Definition output_formatted_data (self : RegularExpressionFinder)
    (file_name line : str) (line_no : nat) (matches : list Match) : Py unit :=
  if underscore self then UnderscoreFormatter_format file_name line line_no matches
  else if color self then ColorFormatter_format file_name line line_no matches
  else if machine self then MachineFormatter_format file_name line line_no matches
  else DefaultFormatter_format file_name line line_no matches.

(** [enumerate(file, 1)] *)
Definition enumerate1 (file : list str) : list (nat * str) :=
  combine (seq 1 (length file)) file.

(** [search_matches] *)
Definition search_matches (self : RegularExpressionFinder) (file : list str)
    (file_name : str) : Py unit :=
  for_each (enumerate1 file) (fun '(line_no, raw) =>
    let line := remove_newlines raw in
    let matches := finditer (pattern self) line in
    output_formatted_data self file_name line line_no matches).

Definition stdin_prompt : str :=
  of_string "Enter text to searches for lines matching regular expression"
  ++ of_string "(Press CTRL+D (Unix) or CTRL+Z (Windows) to exit): ".

(** [get_content] *)
Definition get_content (env : Env) (self : RegularExpressionFinder) : Py unit :=
  match files self with
  | Some names =>
      for_each names (fun file_name =>
        match file_system env file_name with
        | None => print (of_string "File not found error: " ++ file_name) ;; exit
        | Some file => open_read file_name ;; search_matches self file file_name
        end)
  | None =>
      print stdin_prompt ;;
      search_matches self (stdin env) (of_string "STDIN")
  end.

(** [RegularExpressionFinder.__init__], which is all that [main] runs. *)
Definition main (env : Env) (args : Args) : Py unit :=
  match compile (regular_expression args) with
  | Compiled p =>
      get_content env {| pattern := p; files := arg_files args;
                         underscore := arg_underscore args;
                         color := arg_color args;
                         machine := arg_machine args |}
  | ReError => print (of_string "Invalid regular expression") ;; exit
  | Unsupported => fun w => (Beyond, w)
  end.

Definition empty_world : World :=
  {| stdout := []; json_output_file := []; opened := [] |}.

(** ** Properties of match sequences and of the output *)

(** The spans of a match sequence, as pairs [(start, end)]. *)
Definition spans (ms : list Match) : list (nat * nat) :=
  map (fun m => (start m, end_ m)) ms.

(** A match record of [line]: its offsets lie in the line, in order, and
    its text is the span of the line between them. *)
Definition match_of (line : str) (m : Match) : Prop :=
  start m <= end_ m /\ end_ m <= length line
  /\ group m = slice line (start m) (end_ m).

(** The numbers of a list increase strictly. *)
Fixpoint increasing (l : list nat) : Prop :=
  match l with
  | a :: ((b :: _) as l') => a < b /\ increasing l'
  | _ => True
  end.

(** No span begins before the one in front of it has ended. *)
Fixpoint non_overlapping (ms : list Match) : Prop :=
  match ms with
  | m1 :: ((m2 :: _) as ms') => end_ m1 <= start m2 /\ non_overlapping ms'
  | _ => True
  end.

(** Consecutive matches either begin at increasing offsets, or they begin at
    the same offset, the first one empty and the second one not. *)
Fixpoint advancing (ms : list Match) : Prop :=
  match ms with
  | m1 :: ((m2 :: _) as ms') =>
      (start m1 < start m2
       \/ (start m1 = start m2 /\ end_ m1 = start m1 /\ start m2 < end_ m2))
      /\ advancing ms'
  | _ => True
  end.

(** The line put together again from [last] on: for every match the gap in
    front of it and its text, and the gap after the last match. *)
Fixpoint reassemble (line : str) (last : nat) (ms : list Match) : str :=
  match ms with
  | [] => slice_from line last
  | m :: ms' => slice line last (start m) ++ group m ++ reassemble line (end_ m) ms'
  end.

(** A match sequence in scanning order from offset [c] on: every match
    begins at or after [c] and at or after the end of the match in front of
    it, and does not end before it begins. *)
Fixpoint in_order (c : nat) (ms : list Match) : Prop :=
  match ms with
  | [] => True
  | m :: ms' => c <= start m /\ start m <= end_ m /\ in_order (end_ m) ms'
  end.

(** The end of the last match, [last] when there is none. *)
Definition last_end (last : nat) (ms : list Match) : nat :=
  fold_left (fun _ m => end_ m) ms last.

(** Offset [i] lies inside one of the matches. *)
Definition covered (ms : list Match) (i : nat) : bool :=
  existsb (fun m => (start m <=? i) && (i <? end_ m)) ms.

(** The second line of the underline display, written from the positions:
    a caret under every matched offset and a space under every other
    offset, up to the end of the last match. *)
Definition caret_line (ms : list Match) : str :=
  map (fun i => if covered ms i then "^"%char else " "%char) (seq 0 (last_end 0 ms)).

(** The second line as the specification words it: as wide as the line,
    with spaces also after the last match. *)
Definition caret_line_full (line : str) (ms : list Match) : str :=
  map (fun i => if covered ms i then "^"%char else " "%char) (seq 0 (length line)).

Fixpoint starts_with (p x : str) : bool :=
  match p, x with
  | [], _ => true
  | a :: p', b :: x' => Ascii.eqb a b && starts_with p' x'
  | _ :: _, [] => false
  end.

Definition color_sequence_at (x : str) : bool :=
  starts_with color_on x || starts_with color_off x.

(** Reading [x] from left to right, with [skip] characters of a colour
    sequence still to be dropped. *)
Fixpoint strip_from (skip : nat) (x : str) {struct x} : str :=
  match x with
  | [] => []
  | c :: x' =>
      match skip with
      | S skip' => strip_from skip' x'
      | 0 => if color_sequence_at x then strip_from 4 x' else c :: strip_from 0 x'
      end
  end.

(** The text with every colour sequence ([ESC[91m] and [ESC[00m]) deleted. *)
Definition strip_color (x : str) : str := strip_from 0 x.

(** No colour sequence occurs in the text. *)
Fixpoint color_free (x : str) : bool :=
  match x with
  | [] => true
  | _ :: x' => negb (color_sequence_at x) && color_free x'
  end.

(** All that was printed, as one text. *)
Definition printed (w : World) : str := concat (stdout w).

(** The world after more output. *)
Definition wrote (w : World) (chunks : list str) (appended : str) : World :=
  {| stdout := stdout w ++ chunks;
     json_output_file := json_output_file w ++ appended;
     opened := opened w |}.

Definition with_files (args : Args) (names : list str) : Args :=
  {| regular_expression := regular_expression args;
     arg_files := Some names;
     arg_underscore := arg_underscore args;
     arg_color := arg_color args;
     arg_machine := arg_machine args |}.

(** A matcher calls the rest of the pattern only at offsets to the right,
    inside the line. *)
Definition reaches (line : str) (body : nat -> (nat -> option nat) -> option nat) : Prop :=
  forall i k e, i <= length line -> body i k = Some e ->
    exists j, i <= j /\ j <= length line /\ k j = Some e.

(** A matcher does not look at the rest of the pattern outside those
    offsets. *)
Definition local (line : str) (body : nat -> (nat -> option nat) -> option nat) : Prop :=
  forall i k1 k2, i <= length line ->
    (forall j, i <= j -> j <= length line -> k1 j = k2 j) ->
    body i k1 = body i k2.

(** What a scanner standing at offset [c] can produce: every match is a
    match record of the line at or after the scanner, not empty at [c]
    itself when the scanner must advance, and the rest is what the scanner
    after that match can produce. *)
Fixpoint scanned (line : str) (c : nat) (must : bool) (ms : list Match) : Prop :=
  match ms with
  | [] => True
  | m :: ms' =>
      c <= start m /\ match_of line m
      /\ (must = true -> start m = c -> c < end_ m)
      /\ scanned line (end_ m) (end_ m =? start m) ms'
  end.

(** The output of the colour display before the rest of the line: for every
    match the gap in front of it and its text between the two colour
    sequences. *)
Fixpoint colored (line : str) (last : nat) (ms : list Match) : str :=
  match ms with
  | [] => []
  | m :: ms' =>
      slice line last (start m)
      ++ (color_on ++ slice line (start m) (end_ m) ++ color_off)
      ++ colored line (end_ m) ms'
  end.

(** The character that follows a piece of the line in the output: the
    escape character of a colour sequence, or the line end. *)
Definition follows_text (x : str) : Prop :=
  match x with
  | [] => True
  | c :: _ => c = escape_char \/ c = newline
  end.

(** The line of the plain listing, as the specification gives its form. *)
Definition default_line (source_id : str) (line_number : nat) (text : str) : str :=
  of_string "file name: " ++ source_id ++ of_string ", line: "
  ++ str_of_nat line_number ++ of_string ", matched_text: " ++ text.

(** The record string [source_id:line_number:start_offset:matched_substring]. *)
Definition record_string (source_id : str) (line_number start_offset : nat)
    (text : str) : str :=
  source_id ++ of_string ":" ++ str_of_nat line_number ++ of_string ":"
  ++ str_of_nat start_offset ++ of_string ":" ++ text.

(** A computation that ends normally and opens no file. *)
Definition quiet (c : Py unit) : Prop :=
  forall w, exists w', c w = (Return tt, w') /\ opened w' = opened w.

(** A file system for the examples: the one file [a.txt], of three lines. *)
Fixpoint str_eqb (x y : str) : bool :=
  match x, y with
  | [], [] => true
  | a :: x', b :: y' => Ascii.eqb a b && str_eqb x' y'
  | _, _ => false
  end.

Definition example_env : Env :=
  {| file_system := fun name =>
       if str_eqb name "a.txt"
       then Some [of_string "id7 and 88" ++ [newline];
                  of_string "none" ++ [newline];
                  of_string "x1"]
       else None;
     stdin := [of_string "baaab" ++ [newline]] |}.

Definition example_args (regular_expression : str) (files : option (list str)) : Args :=
  {| regular_expression := regular_expression;
     arg_files := files;
     arg_underscore := false;
     arg_color := false;
     arg_machine := false |}.

(** ** Properties of whole runs *)

(** A computation that ends normally and only adds to what was printed and
    to the output file, the same whatever was there before. *)
Definition appends (c : Py unit) : Prop :=
  exists chunks text, forall w, c w = (Return tt, wrote w chunks text).

(** A computation that leaves the output file as it is, however it ends. *)
Definition keeps_artifact {A : Type} (c : Py A) : Prop :=
  forall w, json_output_file (snd (c w)) = json_output_file w.

(** The object of a run with the given pattern and display options. *)
Definition finder (p : regex) (names : option (list str)) (u c m : bool)
    : RegularExpressionFinder :=
  {| pattern := p; files := names; underscore := u; color := c; machine := m |}.

(** The text holds no line break. *)
Definition one_line (x : str) : Prop := ~ In newline x.

(** ** What a pattern matches *)

(** [matches line r i j]: the pattern [r] matches the text of the line from
    offset [i] to offset [j], read off the pattern alone and not off the
    way the matcher searches. *)
Inductive matches (line : str) : regex -> nat -> nat -> Prop :=
| M_Empty i : matches line Empty i i
| M_Lit c i : nth_error line i = Some c -> matches line (Lit c) i (S i)
| M_Any c i :
    nth_error line i = Some c -> c <> newline -> matches line Any i (S i)
| M_Digit c i :
    nth_error line i = Some c -> is_digit c = true -> matches line Digit i (S i)
| M_Word c i :
    nth_error line i = Some c -> is_word c = true -> matches line Word i (S i)
| M_Bol : matches line Bol 0 0
| M_Eol i : at_end line i = true -> matches line Eol i i
| M_Boundary i : at_boundary line i = true -> matches line Boundary i i
| M_Seq r1 r2 i j k :
    matches line r1 i j -> matches line r2 j k -> matches line (Seq r1 r2) i k
| M_Alt1 r1 r2 i j : matches line r1 i j -> matches line (Alt r1 r2) i j
| M_Alt2 r1 r2 i j : matches line r2 i j -> matches line (Alt r1 r2) i j
| M_Star0 r i : matches line (Star r) i i
| M_StarS r i j k :
    matches line r i j -> matches line (Star r) j k -> matches line (Star r) i k
| M_Plus r i j k :
    matches line r i j -> matches line (Star r) j k -> matches line (Plus r) i k
| M_Opt0 r i : matches line (Opt r) i i
| M_Opt1 r i j : matches line r i j -> matches line (Opt r) i j
| M_Group b r i j : matches line r i j -> matches line (Group b r) i j.

(** The pattern matches somewhere in the line. *)
Definition matches_somewhere (line : str) (r : regex) : Prop :=
  exists i j, i <= length line /\ matches line r i j.

(** A character that stands for itself in a pattern: none of the special
    characters of the pattern language. *)
Definition is_plain (c : ascii) : bool :=
  negb (Ascii.eqb c "|" || Ascii.eqb c ")" || Ascii.eqb c backslash
        || is_repeat_char c || Ascii.eqb c "." || Ascii.eqb c "^"
        || Ascii.eqb c "$" || Ascii.eqb c "(" || Ascii.eqb c "["
        || Ascii.eqb c "{").

(** The pattern of a text of plain characters: its characters in sequence. *)
Definition literal (text : str) : regex := seq_of (rev (map Lit text)).

(** ** Reading the output file back *)

(** A printable ASCII character. *)
Definition is_printable (c : ascii) : bool := in_range 32 126 c.

(** The character that an escape [\e] inside a JSON string stands for. *)
Definition unescape (e : ascii) : option ascii :=
  if Ascii.eqb e quote_char then Some quote_char
  else if Ascii.eqb e backslash then Some backslash
  else if Ascii.eqb e "n" then Some (ascii_of_nat 10)
  else if Ascii.eqb e "r" then Some (ascii_of_nat 13)
  else if Ascii.eqb e "t" then Some (ascii_of_nat 9)
  else if Ascii.eqb e "b" then Some (ascii_of_nat 8)
  else if Ascii.eqb e "f" then Some (ascii_of_nat 12)
  else None.

Definition hex_value (c : ascii) : option nat :=
  if in_range 48 57 c then Some (nat_of_ascii c - 48)
  else if in_range 97 102 c then Some (nat_of_ascii c - 87)
  else None.

Definition cons_result (c : ascii) (r : option (str * str)) : option (str * str) :=
  match r with
  | Some (x, rest) => Some (c :: x, rest)
  | None => None
  end.

(** A reader of JSON strings: from the text after the opening quote, the
    string up to the closing quote and the text after it. *)
Fixpoint json_read_string (x : str) {struct x} : option (str * str) :=
  match x with
  | [] => None
  | c :: x1 =>
      if Ascii.eqb c quote_char then Some ([], x1)
      else if Ascii.eqb c backslash then
        match x1 with
        | e :: x2 =>
            if Ascii.eqb e "u" then
              match x2 with
              | z1 :: z2 :: h :: l :: x6 =>
                  match hex_value h, hex_value l with
                  | Some a, Some b =>
                      if Ascii.eqb z1 "0" && Ascii.eqb z2 "0"
                      then cons_result (ascii_of_nat (16 * a + b))
                             (json_read_string x6)
                      else None
                  | _, _ => None
                  end
              | _ => None
              end
            else
              match unescape e with
              | Some ch => cons_result ch (json_read_string x2)
              | None => None
              end
        | [] => None
        end
      else cons_result c (json_read_string x1)
  end.

(** The text after the prefix [p], when the text begins with [p]. *)
Definition expect (p x : str) : option str :=
  if starts_with p x then Some (skipn (length p) x) else None.

(** The items of an array after its first one, up to the closing bracket. *)
Fixpoint json_read_items (fuel : nat) (x : str) {struct fuel}
    : option (list str * str) :=
  match fuel with
  | 0 => None
  | S fuel' =>
      match expect (of_string "," ++ newline_indent ++ [quote_char]) x with
      | Some x1 =>
          match json_read_string x1 with
          | Some (item, x2) =>
              match json_read_items fuel' x2 with
              | Some (items, rest) => Some (item :: items, rest)
              | None => None
              end
          | None => None
          end
      | None =>
          match expect (newline :: of_string "]") x with
          | Some rest => Some ([], rest)
          | None => None
          end
      end
  end.

(** A reader of one array of strings, as [json.dump] with [indent=4] writes
    it: the array and the text after it. *)
Definition json_read_array (x : str) : option (list str * str) :=
  match expect (of_string "[]") x with
  | Some rest => Some ([], rest)
  | None =>
      match expect (of_string "[" ++ newline_indent ++ [quote_char]) x with
      | Some x1 =>
          match json_read_string x1 with
          | Some (item, x2) =>
              match json_read_items (length x2) x2 with
              | Some (items, rest) => Some (item :: items, rest)
              | None => None
              end
          | None => None
          end
      | None => None
      end
  end.

(** A reader of the whole output file: arrays one after the other. *)
Fixpoint json_read_arrays (fuel : nat) (x : str) {struct fuel}
    : option (list (list str)) :=
  match x with
  | [] => Some []
  | _ :: _ =>
      match fuel with
      | 0 => None
      | S fuel' =>
          match json_read_array x with
          | Some (data, rest) =>
              match json_read_arrays fuel' rest with
              | Some datas => Some (data :: datas)
              | None => None
              end
          | None => None
          end
      end
  end.

Definition json_read_file (x : str) : option (list (list str)) :=
  json_read_arrays (length x) x.

(** The record strings of the lines of a source, line by line. *)
Definition records_of (p : regex) (file_name : str) (file : list str)
    : list (list str) :=
  map (fun '(line_no, raw) =>
         map (fun m => record_string file_name line_no (start m) (group m))
             (finditer p (remove_newlines raw)))
      (enumerate1 file).

(** The empty match at offset [k]. *)
Definition empty_match (k : nat) : Match := {| start := k; end_ := k; group := [] |}.

(** What the plain listing prints for a source: for each line, in order,
    the entries of its matches, under line numbers that begin at 1. *)
Definition default_entries (p : regex) (file_name : str) (file : list str)
    : list str :=
  flat_map (fun '(line_no, raw) =>
              map (fun m => default_line file_name line_no (group m) ++ [newline])
                  (finditer p (remove_newlines raw)))
           (enumerate1 file).

(** The lines of a file, none for a file that does not exist. *)
Definition lines_of (env : Env) (file_name : str) : list str :=
  match file_system env file_name with
  | Some file => file
  | None => []
  end.

(** * Facts about the matcher *)

Section MatcherFacts.

Variable line : str.

Lemma max_until_eq body k fuel i :
  max_until body k fuel i =
  match
    body i (fun j =>
              if j =? i then k j
              else match fuel with
                   | 0 => None
                   | S fuel' => max_until body k fuel' j
                   end)
  with
  | Some e => Some e
  | None => k i
  end.
Proof. destruct fuel; reflexivity. Qed.

Lemma step_char_reaches p : reaches line (step_char line p).
Proof.
  intros i k e _ H. unfold step_char in H.
  destruct (nth_error line i) as [c|] eqn:Hc; [|discriminate].
  destruct (p c); [|discriminate].
  assert (i < length line) by (apply nth_error_Some; congruence).
  exists (S i). repeat split; auto; lia.
Qed.

Lemma step_char_local p : local line (step_char line p).
Proof.
  intros i k1 k2 _ Hk. unfold step_char.
  destruct (nth_error line i) as [c|] eqn:Hc; [|reflexivity].
  destruct (p c); [|reflexivity].
  assert (i < length line) by (apply nth_error_Some; congruence).
  apply Hk; lia.
Qed.

Lemma max_until_reaches body fuel :
  reaches line body -> reaches line (fun i k => max_until body k fuel i).
Proof.
  intros Hb. induction fuel as [|fuel IH]; intros i k e Hi H;
    rewrite max_until_eq in H.
  - destruct (body i _) as [e'|] eqn:Hbody.
    + injection H as <-. apply Hb in Hbody; auto.
      destruct Hbody as (j & Hij & Hj & Hk).
      destruct (Nat.eqb_spec j i); [|discriminate]. eauto.
    + exists i. auto.
  - destruct (body i _) as [e'|] eqn:Hbody.
    + injection H as <-. apply Hb in Hbody; auto.
      destruct Hbody as (j & Hij & Hj & Hk).
      destruct (Nat.eqb_spec j i); [eauto|].
      apply IH in Hk; auto. destruct Hk as (j' & ? & ? & ?).
      exists j'. repeat split; auto; lia.
    + exists i. auto.
Qed.

Lemma sre_match_reaches r : reaches line (sre_match line r).
Proof.
  induction r; simpl; try apply step_char_reaches.
  - intros i k e Hi H. eauto.
  - intros i k e Hi H. destruct (i =? 0); [eauto | discriminate].
  - intros i k e Hi H. destruct (at_end line i); [eauto | discriminate].
  - intros i k e Hi H. destruct (at_boundary line i); [eauto | discriminate].
  - intros i k e Hi H. apply IHr1 in H; auto.
    destruct H as (j & ? & ? & H). apply IHr2 in H; auto.
    destruct H as (j' & ? & ? & H). exists j'. repeat split; auto; lia.
  - intros i k e Hi H.
    destruct (sre_match line r1 i k) eqn:H1.
    + injection H as <-. eapply IHr1; eauto.
    + eapply IHr2; eauto.
  - apply (max_until_reaches _ (length line) IHr).
  - intros i k e Hi H. apply IHr in H; auto.
    destruct H as (j & ? & ? & H).
    apply (max_until_reaches _ (length line) IHr) in H; auto.
    destruct H as (j' & ? & ? & H). exists j'. repeat split; auto; lia.
  - intros i k e Hi H.
    destruct (sre_match line r i k) eqn:H1.
    + injection H as <-. eapply IHr; eauto.
    + eauto.
  - exact IHr.
Qed.

Lemma max_until_local body fuel :
  local line body -> local line (fun i k => max_until body k fuel i).
Proof.
  intros Hb. induction fuel as [|fuel IH]; intros i k1 k2 Hi Hk;
    rewrite !max_until_eq.
  - rewrite (Hk i) by lia.
    erewrite (Hb i); [reflexivity | auto |].
    intros j Hij Hj. simpl. destruct (j =? i); auto.
  - rewrite (Hk i) by lia.
    erewrite (Hb i); [reflexivity | auto |].
    intros j Hij Hj. simpl. destruct (j =? i); auto.
    apply IH; auto. intros; apply Hk; lia.
Qed.

Lemma sre_match_local r : local line (sre_match line r).
Proof.
  induction r; simpl; try apply step_char_local.
  - intros i k1 k2 Hi Hk. apply Hk; lia.
  - intros i k1 k2 Hi Hk. rewrite (Hk i) by lia. reflexivity.
  - intros i k1 k2 Hi Hk. rewrite (Hk i) by lia. reflexivity.
  - intros i k1 k2 Hi Hk. rewrite (Hk i) by lia. reflexivity.
  - intros i k1 k2 Hi Hk. apply IHr1; auto.
    intros j ? ?. apply IHr2; auto. intros; apply Hk; lia.
  - intros i k1 k2 Hi Hk.
    rewrite (IHr1 i k1 k2), (IHr2 i k1 k2); auto.
  - apply (max_until_local _ (length line) IHr).
  - intros i k1 k2 Hi Hk. apply IHr; auto.
    intros j ? ?. apply (max_until_local _ (length line) IHr); auto.
    intros; apply Hk; lia.
  - intros i k1 k2 Hi Hk.
    rewrite (IHr i k1 k2), (Hk i); auto.
  - exact IHr.
Qed.

(** The fuel of the greedy repeat is never used up: any two amounts of at
    least [length line - i] give the same result. *)
Lemma max_until_fuel body k :
  local line body ->
  forall fuel1 fuel2 i, i <= length line ->
    length line - i <= fuel1 -> length line - i <= fuel2 ->
    max_until body k fuel1 i = max_until body k fuel2 i.
Proof.
  intros Hb. induction fuel1 as [|fuel1 IH]; intros fuel2 i Hi H1 H2;
    rewrite !max_until_eq.
  - erewrite (Hb i); [reflexivity | auto |].
    intros j Hij Hj. simpl. destruct (Nat.eqb_spec j i); auto. lia.
  - erewrite (Hb i); [reflexivity | auto |].
    intros j Hij Hj. simpl. destruct (Nat.eqb_spec j i); auto.
    destruct fuel2 as [|fuel2]; [lia|].
    apply IH; lia.
Qed.

(** In particular the fuel that [sre_match] gives to a greedy repeat, the
    length of the line, is enough at every offset of the line. *)
Corollary star_fuel r k fuel i :
  i <= length line -> length line - i <= fuel ->
  max_until (sre_match line r) k fuel i = sre_match line (Star r) i k.
Proof.
  intros Hi Hfuel. simpl.
  apply max_until_fuel; auto using sre_match_local. lia.
Qed.

(** A match found at [ptr] ends inside the line, not before [ptr], and
    not at [ptr] when the match must advance. *)
Lemma match_at_bounds r must ptr e :
  ptr <= length line -> match_at line r must ptr = Some e ->
  ptr <= e /\ e <= length line /\ (must = true -> ptr < e).
Proof.
  intros Hp H. unfold match_at in H.
  apply sre_match_reaches in H; auto.
  destruct H as (j & ? & ? & H). unfold success in H.
  destruct must; simpl in H.
  - destruct (Nat.eqb_spec j ptr); [discriminate|].
    injection H as <-. repeat split; auto; lia.
  - injection H as <-. repeat split; auto. discriminate.
Qed.

Lemma sre_search_bounds r n : forall must ptr s e,
  ptr + n <= length line ->
  sre_search line r n must ptr = Some (s, e) ->
  ptr <= s /\ s <= e /\ e <= length line
  /\ (must = true -> s = ptr -> ptr < e).
Proof.
  induction n as [|n IH]; intros must ptr s e Hn H; simpl in H.
  - destruct (match_at line r must ptr) as [e'|] eqn:Hm; [|discriminate].
    injection H as <- <-. apply match_at_bounds in Hm; [|lia].
    intuition lia.
  - destruct (match_at line r must ptr) as [e'|] eqn:Hm.
    + injection H as <- <-. apply match_at_bounds in Hm; [|lia].
      intuition lia.
    + apply IH in H; [|lia]. intuition lia.
Qed.

End MatcherFacts.

(** * Facts about the scanner *)

Lemma slice_skipn (line : str) (a b : nat) :
  a <= b -> slice line a b ++ skipn b line = skipn a line.
Proof.
  intros Hab. unfold slice.
  replace (skipn b line) with (skipn (b - a) (skipn a line)).
  - apply firstn_skipn.
  - rewrite skipn_skipn. f_equal. lia.
Qed.

Lemma slice_length (line : str) (a b : nat) :
  a <= b -> b <= length line -> length (slice line a b) = b - a.
Proof.
  intros Hab Hb. unfold slice. rewrite length_firstn, length_skipn. lia.
Qed.

Section ScannerFacts.

Variable r : regex.
Variable line : str.

(** One call of [scanner.search()]. *)
Lemma scanner_search_step sc m sc' :
  pos sc <= length line ->
  scanner_search r line sc = Some (m, sc') ->
  pos sc <= start m /\ match_of line m
  /\ (must_advance sc = true -> start m = pos sc -> pos sc < end_ m)
  /\ pos sc' = end_ m /\ must_advance sc' = (end_ m =? start m)
  /\ scanner_measure line sc' < scanner_measure line sc.
Proof.
  intros Hp H. unfold scanner_search in H.
  destruct (sre_search line r _ _ _) as [[s e]|] eqn:Hs; [|discriminate].
  injection H as <- <-.
  apply sre_search_bounds in Hs; [|lia].
  destruct Hs as (H1 & H2 & H3 & H4).
  unfold match_of, scanner_measure. simpl.
  repeat split; auto.
  destruct (Nat.eqb_spec e s) as [->|Hne].
  - destruct (must_advance sc).
    + destruct (Nat.eq_dec s (pos sc)) as [Heq|]; [|lia].
      specialize (H4 eq_refl Heq). lia.
    + lia.
  - destruct (must_advance sc); lia.
Qed.

Lemma scan_scanned fuel : forall sc ms,
  pos sc <= length line ->
  scan r line fuel sc = Some ms ->
  scanned line (pos sc) (must_advance sc) ms.
Proof.
  induction fuel as [|fuel IH]; intros sc ms Hp H; simpl in H; [discriminate|].
  destruct (scanner_search r line sc) as [[m sc']|] eqn:Hs.
  - destruct (scan r line fuel sc') as [ms'|] eqn:Hscan; [|discriminate].
    injection H as <-.
    apply scanner_search_step in Hs; auto.
    destruct Hs as (H1 & H2 & H3 & H4 & H5 & _).
    assert (Hrest : scanned line (pos sc') (must_advance sc') ms').
    { apply IH; auto. rewrite H4. apply H2. }
    rewrite H4, H5 in Hrest.
    simpl. repeat split; auto; apply H2.
  - injection H as <-. exact I.
Qed.

(** The scan ends: fuel above the measure of the scanner is enough, and
    the number of matches is bounded by that measure. *)
Lemma scan_total fuel : forall sc,
  pos sc <= length line ->
  scanner_measure line sc < fuel ->
  exists ms, scan r line fuel sc = Some ms
             /\ length ms <= scanner_measure line sc.
Proof.
  induction fuel as [|fuel IH]; intros sc Hp Hm; [lia|]. simpl.
  destruct (scanner_search r line sc) as [[m sc']|] eqn:Hs.
  - apply scanner_search_step in Hs; auto.
    destruct Hs as (H1 & H2 & H3 & H4 & H5 & H6).
    destruct (IH sc') as (ms & -> & Hlen).
    + rewrite H4. apply H2.
    + lia.
    + exists (m :: ms). split; auto. simpl. lia.
  - exists []. split; auto. simpl. lia.
Qed.

(** More fuel does not change the result of a scan that ended. *)
Lemma scan_more_fuel fuel : forall fuel' sc ms,
  fuel <= fuel' -> scan r line fuel sc = Some ms ->
  scan r line fuel' sc = Some ms.
Proof.
  induction fuel as [|fuel IH]; intros fuel' sc ms Hle H; simpl in H;
    [discriminate|].
  destruct fuel' as [|fuel']; [lia|]. simpl.
  destruct (scanner_search r line sc) as [[m sc']|]; auto.
  destruct (scan r line fuel sc') as [ms'|] eqn:Hscan; [|discriminate].
  rewrite (IH fuel' sc' ms'); auto. lia.
Qed.

Lemma finditer_scan :
  scan r line (2 * length line + 2) scanner_init = Some (finditer r line).
Proof.
  unfold finditer.
  destruct (scan_total (2 * length line + 2) scanner_init)
    as (ms & Hms & _).
  - simpl. lia.
  - unfold scanner_measure. simpl. lia.
  - rewrite Hms. reflexivity.
Qed.

Lemma finditer_scanned : scanned line 0 false (finditer r line).
Proof.
  apply (scan_scanned (2 * length line + 2) scanner_init).
  - simpl. lia.
  - apply finditer_scan.
Qed.

End ScannerFacts.

Lemma scanned_match_of line ms : forall c must,
  scanned line c must ms -> Forall (match_of line) ms.
Proof.
  induction ms as [|m ms IH]; intros c must H; constructor.
  - apply H.
  - eapply IH. apply H.
Qed.

Lemma scanned_non_overlapping line ms : forall c must,
  scanned line c must ms -> non_overlapping ms.
Proof.
  induction ms as [|m1 ms IH]; intros c must H; [exact I|].
  destruct ms as [|m2 ms]; [exact I|].
  destruct H as (_ & _ & _ & H). split.
  - apply H.
  - eapply IH. exact H.
Qed.

Lemma scanned_advancing line ms : forall c must,
  scanned line c must ms -> advancing ms.
Proof.
  induction ms as [|m1 ms IH]; intros c must H; [exact I|].
  destruct ms as [|m2 ms]; [exact I|].
  destruct H as (_ & (H1 & _) & _ & H). split.
  - destruct H as (Hc & (H2 & _) & Hmust & _).
    destruct (Nat.eqb_spec (end_ m1) (start m1)) as [Heq|Hne].
    + destruct (Nat.eq_dec (start m2) (end_ m1)) as [Hs|Hs].
      * right. specialize (Hmust eq_refl Hs). lia.
      * left. lia.
    + left. lia.
  - eapply IH. exact H.
Qed.

Lemma scanned_reassemble line ms : forall c must,
  scanned line c must ms -> reassemble line c ms = skipn c line.
Proof.
  induction ms as [|m ms IH]; intros c must H; simpl; [reflexivity|].
  destruct H as (H1 & (H2 & H3 & H4) & _ & H).
  rewrite (IH _ _ H), H4, slice_skipn by auto.
  apply slice_skipn; auto.
Qed.

Lemma scanned_in_order line ms : forall c must,
  scanned line c must ms -> in_order c ms.
Proof.
  induction ms as [|m ms IH]; intros c must H; simpl; [exact I|].
  destruct H as (H1 & (H2 & _) & _ & H).
  repeat split; auto. eapply IH. exact H.
Qed.

(** The match sequences that the formatters are given are in scanning
    order. *)
Lemma finditer_in_order r line : in_order 0 (finditer r line).
Proof. eapply scanned_in_order. apply finditer_scanned. Qed.

(** The scanner on the patterns and the line of the zero-width cases of
    CPython's own tests of [re]. *)
Example finditer_zero_width :
  spans (finditer (Alt Boundary (Plus (Lit ":"))) "a::bc")
  = [(0, 0); (1, 1); (1, 3); (3, 3); (5, 5)]
  /\ spans (finditer (Alt Boundary (Plus Word)) "a::bc")
     = [(0, 0); (0, 1); (1, 1); (3, 3); (3, 5); (5, 5)]
  /\ spans (finditer (Star (Lit "x")) "abxd")
     = [(0, 0); (1, 1); (2, 3); (3, 3); (4, 4)].
Proof. repeat split. Qed.

(** * The claims *)

(** C1 (as amended). For every pattern and every line, the match records
    that [pattern.finditer(line)] produces lie within the line
    ([start <= end <= len(line)], the text being [line[start:end]]), do not
    overlap, and begin at offsets that never decrease: the start offset
    increases from one match to the next, except that an empty match may be
    followed by a match at the same offset that is not empty.  Putting
    together every gap with the match after it, and the gap after the last
    match, gives the line back. *)
Theorem finditer_spans_in_order (r : regex) (line : str) :
  Forall (match_of line) (finditer r line)
  /\ non_overlapping (finditer r line)
  /\ advancing (finditer r line)
  /\ reassemble line 0 (finditer r line) = line.
Proof.
  pose proof (finditer_scanned r line) as H.
  repeat split.
  - eapply scanned_match_of; eauto.
  - eapply scanned_non_overlapping; eauto.
  - eapply scanned_advancing; eauto.
  - rewrite (scanned_reassemble _ _ _ _ H). reflexivity.
Qed.

(** C1 (as stated) fails: for the pattern [\b|\w+] on the line ["a::bc"]
    the matches are at (0,0), (0,1), (1,1), (3,3), (3,5), (5,5), so the start
    offsets 0, 0, 1, 3, 3, 5 do not increase strictly. *)
Lemma finditer_starts_not_increasing :
  compile "\b|\w+" = Compiled (Alt Boundary (Plus Word))
  /\ spans (finditer (Alt Boundary (Plus Word)) "a::bc")
     = [(0, 0); (0, 1); (1, 1); (3, 3); (3, 5); (5, 5)]
  /\ ~ increasing (map start (finditer (Alt Boundary (Plus Word)) "a::bc")).
Proof.
  split; [reflexivity|]. split; [reflexivity|].
  vm_compute. intros (H & _). inversion H.
Qed.

(** C5 (as amended). For every pattern and every line the scan ends and
    yields a finite match sequence: [2 * len(line) + 2] calls of
    [scanner.search()] always suffice, and there are at most
    [2 * len(line) + 1] matches.  Each emitted match moves the scan cursor
    to its end offset.  A zero-length match leaves the cursor where it is
    and sets [must_advance]: the next match is then either not empty or
    begins further to the right, so that every match brings the scanner
    strictly closer to the end of the line. *)
Theorem finditer_terminates (r : regex) (line : str) :
  (forall fuel, 2 * length line + 2 <= fuel ->
     scan r line fuel scanner_init = Some (finditer r line))
  /\ length (finditer r line) <= 2 * length line + 1
  /\ (forall sc m sc',
        pos sc <= length line ->
        scanner_search r line sc = Some (m, sc') ->
        pos sc' = end_ m
        /\ must_advance sc' = (end_ m =? start m)
        /\ (must_advance sc = true -> start m = pos sc -> pos sc < end_ m)
        /\ scanner_measure line sc' < scanner_measure line sc).
Proof.
  split; [|split].
  - intros fuel Hfuel.
    apply (scan_more_fuel r line (2 * length line + 2)); auto.
    apply finditer_scan.
  - destruct (scan_total r line (2 * length line + 2) scanner_init)
      as (ms & Hms & Hlen).
    + simpl. lia.
    + unfold scanner_measure. simpl. lia.
    + rewrite finditer_scan in Hms. injection Hms as ->.
      unfold scanner_measure in Hlen. simpl in Hlen. lia.
  - intros sc m sc' Hp Hs.
    apply scanner_search_step in Hs; auto. tauto.
Qed.

Lemma finditer_terminates_witness :
  scan (Star (Lit "x")) "abxd" 10 scanner_init
  = Some (finditer (Star (Lit "x")) "abxd")
  /\ pos {| pos := 3; must_advance := false |}
     = end_ {| start := 2; end_ := 3; group := "x" |}.
Proof.
  destruct (finditer_terminates (Star (Lit "x")) "abxd") as (H1 & _ & H3).
  split.
  - apply H1. simpl. lia.
  - apply (H3 {| pos := 1; must_advance := true |}).
    + simpl. lia.
    + reflexivity.
Defined.

(** C5 (as stated) fails: for the pattern [\b|\w+] on the line ["ab"] the
    first match is empty, at offset 0, and the cursor after it is still 0;
    the next match begins at that same offset 0 (and ends at 2). *)
Lemma empty_match_keeps_cursor :
  exists m sc',
    scanner_search (Alt Boundary (Plus Word)) "ab" scanner_init = Some (m, sc')
    /\ start m = end_ m
    /\ ~ pos scanner_init + 1 <= pos sc'
    /\ exists m2 sc2,
         scanner_search (Alt Boundary (Plus Word)) "ab" sc' = Some (m2, sc2)
         /\ start m2 = 0 /\ end_ m2 = 2.
Proof.
  eexists. eexists. split; [reflexivity|].
  split; [reflexivity|]. split; [simpl; lia|].
  eexists. eexists. split; [reflexivity|]. split; reflexivity.
Qed.

(** * Facts about the formatters *)

Lemma wrote_nil w : wrote w [] [] = w.
Proof. destruct w. unfold wrote. simpl. rewrite !app_nil_r. reflexivity. Qed.

Lemma wrote_wrote w a b c d :
  wrote (wrote w a b) c d = wrote w (a ++ c) (b ++ d).
Proof. unfold wrote. simpl. rewrite !app_assoc. reflexivity. Qed.

Lemma print_end_wrote text e w :
  print_end text e w = (Return tt, wrote w [text ++ e] []).
Proof. unfold print_end, wrote. rewrite app_nil_r. reflexivity. Qed.

Lemma print_wrote text w :
  print text w = (Return tt, wrote w [text ++ [newline]] []).
Proof. apply print_end_wrote. Qed.

Lemma append_wrote text w :
  append_json_output_file text w = (Return tt, wrote w [] text).
Proof. unfold append_json_output_file, wrote. rewrite app_nil_r. reflexivity. Qed.

Lemma bind_return {A B : Type} (c : Py A) (k : A -> Py B) {w a w'} :
  c w = (Return a, w') -> bind c k w = k a w'.
Proof. intros H. unfold bind. rewrite H. reflexivity. Qed.

(** A loop of [print] calls writes one entry for each element. *)
Lemma for_each_print {A : Type} (text : A -> str) (xs : list A) : forall w,
  for_each xs (fun x => print (text x)) w
  = (Return tt, wrote w (map (fun x => text x ++ [newline]) xs) []).
Proof.
  induction xs as [|x xs IH]; intros w; simpl.
  - rewrite wrote_nil. reflexivity.
  - rewrite (bind_return _ _ (print_wrote (text x) w)), IH, wrote_wrote.
    reflexivity.
Qed.

(** C8. For every match in a line the Default formatter prints exactly one
    line, [file name: <source>, line: <n>, matched_text: <text>], in the
    order of the matches, and nothing else; for a line without matches it
    prints nothing.  For the pattern [a+] on the line ["baaab"], line 1 of
    source [f], the output is the one line
    [file name: f, line: 1, matched_text: aaa]. *)
Theorem DefaultFormatter_one_line_per_match
    (file_name line : str) (line_no : nat) (matches : list Match) (w : World) :
  DefaultFormatter_format file_name line line_no matches w
  = (Return tt,
     wrote w (map (fun m => default_line file_name line_no (group m) ++ [newline])
                  matches) [])
  /\ DefaultFormatter_format file_name line line_no [] w = (Return tt, w)
  /\ compile "a+" = Compiled (Plus (Lit "a"))
  /\ spans (finditer (Plus (Lit "a")) "baaab") = [(1, 4)]
  /\ DefaultFormatter_format "f" "baaab" 1 (finditer (Plus (Lit "a")) "baaab") w
     = (Return tt,
        wrote w [of_string "file name: f, line: 1, matched_text: aaa" ++ [newline]] []).
Proof.
  assert (H : forall f l n ms,
             DefaultFormatter_format f l n ms w
             = (Return tt,
                wrote w (map (fun m => default_line f n (group m) ++ [newline]) ms) [])).
  { intros. unfold DefaultFormatter_format.
    apply (for_each_print (fun m => default_line f n (group m))). }
  split; [apply H|]. split; [reflexivity|].
  split; [reflexivity|]. split; [reflexivity|].
  rewrite H. reflexivity.
Qed.

(** C6. For every match the Machine formatter builds the record string
    [source_id:line_number:start_offset:matched_substring], and appends the
    list of these strings as one JSON array to the output file.  For the
    pattern [\d+] on the line ["id7"], line 5 of source ["a.txt"], there is
    one match and the one record string is ["a.txt:5:2:7"]. *)
Theorem MachineFormatter_record_strings
    (file_name line : str) (line_no : nat) (matches : list Match) (w : World) :
  MachineFormatter_format file_name line line_no matches w
  = (Return tt,
     wrote w [] (json_dump (map (fun m => record_string file_name line_no
                                            (start m) (group m)) matches)))
  /\ compile "\d+" = Compiled (Plus Digit)
  /\ map (fun m => record_string "a.txt" 5 (start m) (group m))
         (finditer (Plus Digit) "id7")
     = [of_string "a.txt:5:2:7"]
  /\ MachineFormatter_format "a.txt" "id7" 5 (finditer (Plus Digit) "id7") w
     = (Return tt,
        wrote w [] (of_string "[" ++ newline_indent ++ [quote_char]
                    ++ of_string "a.txt:5:2:7" ++ [quote_char; newline]
                    ++ of_string "]")).
Proof.
  assert (H : forall f l n ms,
             MachineFormatter_format f l n ms w
             = (Return tt,
                wrote w [] (json_dump (map (fun m => record_string f n (start m)
                                                       (group m)) ms)))).
  { intros. unfold MachineFormatter_format. apply append_wrote. }
  split; [apply H|]. split; [reflexivity|]. split; [reflexivity|].
  rewrite H. reflexivity.
Qed.

(** C3 (as amended). The Machine formatter appends to the output file for
    every line it is given: the JSON array of the record strings of the
    line, which is never the empty text.  For a line whose match sequence
    is empty it builds no record string and prints nothing, and appends the
    empty array [[]]. *)
Theorem MachineFormatter_appends_every_line
    (file_name line : str) (line_no : nat) (matches : list Match) (w : World) :
  (exists text,
     MachineFormatter_format file_name line line_no matches w
     = (Return tt, wrote w [] text)
     /\ text <> [])
  /\ MachineFormatter_format file_name line line_no [] w
     = (Return tt, wrote w [] (of_string "[]")).
Proof.
  split.
  - eexists. split; [apply append_wrote|].
    destruct matches; discriminate.
  - apply append_wrote.
Qed.

(** C3 (as stated) fails: the pattern [x] has no match in the line ["abc"],
    and the Machine formatter still changes the output file, which was
    empty and now holds [[]]. *)
Lemma MachineFormatter_writes_for_no_match :
  compile "x" = Compiled (Lit "x")
  /\ finditer (Lit "x") "abc" = []
  /\ json_output_file
       (snd (MachineFormatter_format "a.txt" "abc" 1 (finditer (Lit "x") "abc")
               empty_world))
     = of_string "[]"
  /\ json_output_file
       (snd (MachineFormatter_format "a.txt" "abc" 1 (finditer (Lit "x") "abc")
               empty_world))
     <> json_output_file empty_world.
Proof.
  split; [reflexivity|]. split; [reflexivity|]. split; [reflexivity|].
  discriminate.
Qed.

(** ** The underline display *)

Lemma last_end_cons c m ms : last_end c (m :: ms) = last_end (end_ m) ms.
Proof. reflexivity. Qed.

Lemma in_order_last_end ms : forall c,
  in_order c ms -> c <= last_end c ms.
Proof.
  induction ms as [|m ms IH]; intros c H; [unfold last_end; simpl; lia|].
  destruct H as (H1 & H2 & H). rewrite last_end_cons.
  apply IH in H. lia.
Qed.

(** Matches in order from [c] on cover no offset before [c]. *)
Lemma in_order_not_covered ms : forall c i,
  in_order c ms -> i < c -> covered ms i = false.
Proof.
  induction ms as [|m ms IH]; intros c i H Hi; simpl in *; [reflexivity|].
  destruct H as (H1 & H2 & H).
  rewrite (IH (end_ m) i H) by lia.
  destruct (Nat.leb_spec (start m) i); [lia|]. reflexivity.
Qed.

Lemma map_seq_const {A : Type} (f : nat -> A) (x : A) (n : nat) : forall a,
  (forall i, a <= i -> i < a + n -> f i = x) ->
  map f (seq a n) = repeat x n.
Proof.
  induction n as [|n IH]; intros a H; simpl; [reflexivity|].
  rewrite H by lia. f_equal. apply IH. intros; apply H; lia.
Qed.

(** The loop of [UnderscoreFormatter.format]: from [(c, out)] it reaches the
    end of the last match, having added the marks of the offsets from [c]
    to there. *)
Lemma underscore_fold ms : forall c out,
  in_order c ms ->
  fold_left underscore_step ms (c, out)
  = (last_end c ms,
     out ++ map (fun i => if covered ms i then "^"%char else " "%char)
                (seq c (last_end c ms - c))).
Proof.
  induction ms as [|m ms IH]; intros c out H.
  - unfold last_end. simpl. rewrite Nat.sub_diag, app_nil_r. reflexivity.
  - pose proof (in_order_last_end _ _ H) as Hlast.
    destruct H as (H1 & H2 & H).
    pose proof (in_order_last_end _ _ H) as Hlast'.
    rewrite last_end_cons in *.
    cbn [fold_left underscore_step]. rewrite (IH _ _ H).
    f_equal. rewrite <- !app_assoc. f_equal.
    replace (last_end (end_ m) ms - c)
      with ((start m - c) + ((end_ m - start m) + (last_end (end_ m) ms - end_ m)))
      by lia.
    rewrite !seq_app, !map_app.
    replace (c + (start m - c)) with (start m) by lia.
    replace (start m + (end_ m - start m)) with (end_ m) by lia.
    f_equal; [|f_equal].
    + symmetry. apply map_seq_const. intros i Hci Hi. simpl.
      rewrite (in_order_not_covered _ _ i H) by lia.
      destruct (Nat.leb_spec (start m) i); [lia|]. reflexivity.
    + symmetry. apply map_seq_const. intros i Hci Hi. simpl.
      destruct (Nat.leb_spec (start m) i); [|lia].
      destruct (Nat.ltb_spec i (end_ m)); [|lia]. reflexivity.
    + apply map_ext_in. intros i Hi. apply in_seq in Hi. simpl.
      destruct (Nat.ltb_spec i (end_ m)); [lia|].
      rewrite andb_false_r. reflexivity.
Qed.

(** C4 (as amended). For every line and match sequence in scanning order,
    the Underscore formatter prints the raw line and then a second line
    with a caret under every offset of a match (a run of width
    [end - start] for each match) and a space under every offset of the
    gaps in front of the matches.  The second line ends with the last
    match: nothing is printed for the gap after it.  For a line with zero
    matches the second line is empty. *)
Theorem UnderscoreFormatter_caret_line
    (file_name line : str) (line_no : nat) (matches : list Match) (w : World) :
  in_order 0 matches ->
  UnderscoreFormatter_format file_name line line_no matches w
  = (Return tt, wrote w [line ++ [newline]; caret_line matches ++ [newline]] [])
  /\ length (caret_line matches) = last_end 0 matches
  /\ UnderscoreFormatter_format file_name line line_no [] w
     = (Return tt, wrote w [line ++ [newline]; [newline]] []).
Proof.
  intros H.
  assert (Hp : forall out,
             bind (print line) (fun _ => print out) w
             = (Return tt, wrote w [line ++ [newline]; out ++ [newline]] [])).
  { intros out.
    rewrite (bind_return _ _ (print_wrote line w)), print_wrote, wrote_wrote.
    reflexivity. }
  split; [|split].
  - unfold UnderscoreFormatter_format.
    rewrite (underscore_fold _ 0 [] H), Nat.sub_0_r. apply Hp.
  - unfold caret_line. rewrite length_map, length_seq. reflexivity.
  - unfold UnderscoreFormatter_format. simpl fold_left. apply (Hp []).
Qed.

Lemma UnderscoreFormatter_caret_line_witness :
  UnderscoreFormatter_format "f" "baaab" 1 (finditer (Plus (Lit "a")) "baaab")
    empty_world
  = (Return tt,
     wrote empty_world [of_string "baaab" ++ [newline];
                        of_string " ^^^" ++ [newline]] []).
Proof.
  apply (UnderscoreFormatter_caret_line "f" "baaab" 1
           (finditer (Plus (Lit "a")) "baaab") empty_world).
  simpl. lia.
Defined.

(** C4 (as stated) fails: the pattern [x] has no match in the line ["abc"];
    the second line printed is empty, not three spaces. For the pattern
    [a+] on ["baaab"] the second line is [" ^^^"], with no space for the
    last character of the line. *)
Lemma UnderscoreFormatter_no_trailing_gap :
  finditer (Lit "x") "abc" = []
  /\ stdout (snd (UnderscoreFormatter_format "f" "abc" 1
                    (finditer (Lit "x") "abc") empty_world))
     = [of_string "abc" ++ [newline]; [newline]]
  /\ stdout (snd (UnderscoreFormatter_format "f" "abc" 1
                    (finditer (Lit "x") "abc") empty_world))
     <> [of_string "abc" ++ [newline];
         caret_line_full "abc" (finditer (Lit "x") "abc") ++ [newline]]
  /\ stdout (snd (UnderscoreFormatter_format "f" "baaab" 1
                    (finditer (Plus (Lit "a")) "baaab") empty_world))
     <> [of_string "baaab" ++ [newline];
         caret_line_full "baaab" (finditer (Plus (Lit "a")) "baaab") ++ [newline]].
Proof.
  split; [reflexivity|]. split; [reflexivity|].
  split; vm_compute; discriminate.
Qed.

(** ** The colour display *)

Lemma starts_with_app p : forall x y,
  starts_with p (x ++ y) = true ->
  starts_with p x = true
  \/ (length x < length p /\ starts_with (skipn (length x) p) y = true).
Proof.
  induction p as [|a p IH]; intros x y H; [left; reflexivity|].
  destruct x as [|b x].
  - right. split; [simpl; lia | exact H].
  - simpl in H. apply andb_prop in H. destruct H as (Hab & H).
    apply IH in H. destruct H as [H | (Hlen & H)].
    + left. simpl. rewrite Hab, H. reflexivity.
    + right. split; [simpl; lia | exact H].
Qed.

Lemma starts_with_firstn p : forall n x,
  starts_with p (firstn n x) = true -> starts_with p x = true.
Proof.
  induction p as [|a p IH]; intros n x H; [reflexivity|].
  destruct n as [|n]; [discriminate|].
  destruct x as [|b x]; [discriminate|].
  simpl in *. apply andb_prop in H. destruct H as (Hab & H).
  rewrite Hab, (IH _ _ H). reflexivity.
Qed.

(** A colour sequence cannot begin inside a piece of the line and end in
    what the formatter prints after it. *)
Lemma color_sequence_at_app a x y :
  follows_text y ->
  color_sequence_at (a :: x) = false ->
  color_sequence_at ((a :: x) ++ y) = false.
Proof.
  intros Hy Hx. unfold color_sequence_at in *.
  apply orb_false_elim in Hx. destruct Hx as (Hon & Hoff).
  apply orb_false_intro.
  - destruct (starts_with color_on ((a :: x) ++ y)) eqn:H; [|reflexivity].
    apply starts_with_app in H. destruct H as [H | (Hlen & H)]; [congruence|].
    exfalso. simpl in Hlen.
    destruct x as [|? [|? [|? [|? ?]]]]; simpl in Hlen; try lia;
      destruct y as [|c y]; try discriminate;
      destruct Hy as [-> | ->]; discriminate.
  - destruct (starts_with color_off ((a :: x) ++ y)) eqn:H; [|reflexivity].
    apply starts_with_app in H. destruct H as [H | (Hlen & H)]; [congruence|].
    exfalso. simpl in Hlen.
    destruct x as [|? [|? [|? [|? ?]]]]; simpl in Hlen; try lia;
      destruct y as [|c y]; try discriminate;
      destruct Hy as [-> | ->]; discriminate.
Qed.

(** Deleting the colour sequences leaves a piece of the line as it is. *)
Lemma strip_from_text x : forall y,
  color_free x = true -> follows_text y ->
  strip_from 0 (x ++ y) = x ++ strip_from 0 y.
Proof.
  induction x as [|a x IH]; intros y Hx Hy; [reflexivity|].
  simpl in Hx. apply andb_prop in Hx. destruct Hx as (Ha & Hx).
  apply negb_true_iff in Ha.
  change (strip_from 0 ((a :: x) ++ y))
    with (if color_sequence_at ((a :: x) ++ y)
          then strip_from 4 (x ++ y) else a :: strip_from 0 (x ++ y)).
  rewrite (color_sequence_at_app a x y Hy Ha), IH by auto.
  reflexivity.
Qed.

Lemma strip_color_on y : strip_from 0 (color_on ++ y) = strip_from 0 y.
Proof. reflexivity. Qed.

Lemma strip_color_off y : strip_from 0 (color_off ++ y) = strip_from 0 y.
Proof. reflexivity. Qed.

Lemma color_free_skipn n : forall x,
  color_free x = true -> color_free (skipn n x) = true.
Proof.
  induction n as [|n IH]; intros x H; [exact H|].
  destruct x as [|a x]; [reflexivity|].
  simpl in *. apply andb_prop in H. apply IH, H.
Qed.

Lemma color_free_firstn n : forall x,
  color_free x = true -> color_free (firstn n x) = true.
Proof.
  induction n as [|n IH]; intros x H; [reflexivity|].
  destruct x as [|a x]; [reflexivity|].
  change (firstn (S n) (a :: x)) with (a :: firstn n x).
  simpl in H. apply andb_prop in H. destruct H as (Ha & H).
  change (negb (color_sequence_at (a :: firstn n x))
          && color_free (firstn n x) = true).
  rewrite (IH _ H), andb_true_r.
  apply negb_true_iff in Ha. apply negb_true_iff.
  unfold color_sequence_at in *.
  apply orb_false_elim in Ha. destruct Ha as (Hon & Hoff).
  apply orb_false_intro.
  - destruct (starts_with color_on (a :: firstn n x)) eqn:E; [|reflexivity].
    apply (starts_with_firstn color_on (S n) (a :: x)) in E. congruence.
  - destruct (starts_with color_off (a :: firstn n x)) eqn:E; [|reflexivity].
    apply (starts_with_firstn color_off (S n) (a :: x)) in E. congruence.
Qed.

Lemma color_free_slice line a b :
  color_free line = true -> color_free (slice line a b) = true.
Proof. intros H. apply color_free_firstn, color_free_skipn, H. Qed.

(** The loop of [ColorFormatter.format]. *)
Lemma color_fold line ms : forall c out,
  fold_left (color_step line) ms (c, out)
  = (last_end c ms, out ++ colored line c ms).
Proof.
  induction ms as [|m ms IH]; intros c out.
  - unfold last_end. simpl. rewrite app_nil_r. reflexivity.
  - cbn [fold_left color_step]. rewrite IH, last_end_cons.
    cbn [colored]. rewrite <- !app_assoc. reflexivity.
Qed.

(** Deleting the colour sequences from the output from offset [c] on gives
    the line from [c] on. *)
Lemma strip_colored line ms : forall c,
  color_free line = true ->
  in_order c ms ->
  strip_color (colored line c ms ++ slice_from line (last_end c ms) ++ [newline])
  = slice_from line c ++ [newline].
Proof.
  unfold strip_color, slice_from.
  induction ms as [|m ms IH]; intros c Hfree H.
  - unfold last_end. simpl.
    rewrite strip_from_text; [reflexivity | | simpl; auto].
    apply color_free_skipn, Hfree.
  - destruct H as (H1 & H2 & H).
    rewrite last_end_cons. cbn [colored].
    rewrite <- !app_assoc.
    rewrite strip_from_text;
      [| apply color_free_slice, Hfree | simpl; auto].
    rewrite strip_color_on.
    rewrite strip_from_text;
      [| apply color_free_slice, Hfree | simpl; auto].
    rewrite strip_color_off.
    rewrite (IH _ Hfree H).
    rewrite !app_assoc. f_equal.
    rewrite <- app_assoc, slice_skipn by auto.
    apply slice_skipn; auto.
Qed.

(** C9 (as amended). For every line in which no colour sequence occurs and
    every match sequence in scanning order, deleting all
    colour-escape and reset sequences from what the Color formatter prints
    yields exactly the line (and its line end): the text in front of each
    match is printed as it is, each match between an escape and a reset
    sequence, and the rest of the line after the last match by a second
    [print] after the loop. *)
Theorem ColorFormatter_strip_color
    (file_name line : str) (line_no : nat) (matches : list Match) (w : World) :
  color_free line = true ->
  in_order 0 matches ->
  ColorFormatter_format file_name line line_no matches w
  = (Return tt,
     wrote w [colored line 0 matches;
              slice_from line (last_end 0 matches) ++ [newline]] [])
  /\ strip_color (colored line 0 matches
                  ++ slice_from line (last_end 0 matches) ++ [newline])
     = line ++ [newline].
Proof.
  intros Hfree H. split.
  - unfold ColorFormatter_format. rewrite color_fold. simpl app.
    rewrite (bind_return _ _ (print_end_wrote _ _ w)), print_wrote, wrote_wrote.
    rewrite app_nil_r. reflexivity.
  - apply (strip_colored line matches 0 Hfree H).
Qed.

Lemma ColorFormatter_strip_color_witness :
  strip_color
    (colored "id7 and 88" 0 (finditer (Plus Digit) "id7 and 88")
     ++ slice_from "id7 and 88" (last_end 0 (finditer (Plus Digit) "id7 and 88"))
     ++ [newline])
  = of_string "id7 and 88" ++ [newline].
Proof.
  apply (ColorFormatter_strip_color "a.txt" "id7 and 88" 1
           (finditer (Plus Digit) "id7 and 88") empty_world).
  - reflexivity.
  - simpl. lia.
Defined.

(** C9 (as stated) fails for a line that itself holds a colour sequence:
    the line [ESC[91mx] has no match of the pattern [y] and is printed as it
    is; deleting all colour sequences from the output leaves [x], which is
    not the line. *)
Lemma ColorFormatter_line_with_color_sequence :
  finditer (Lit "y") (color_on ++ of_string "x") = []
  /\ printed (snd (ColorFormatter_format "f" (color_on ++ of_string "x") 1
                     (finditer (Lit "y") (color_on ++ of_string "x")) empty_world))
     = color_on ++ of_string "x" ++ [newline]
  /\ strip_color
       (printed (snd (ColorFormatter_format "f" (color_on ++ of_string "x") 1
                        (finditer (Lit "y") (color_on ++ of_string "x"))
                        empty_world)))
     = of_string "x" ++ [newline]
  /\ strip_color
       (printed (snd (ColorFormatter_format "f" (color_on ++ of_string "x") 1
                        (finditer (Lit "y") (color_on ++ of_string "x"))
                        empty_world)))
     <> (color_on ++ of_string "x") ++ [newline].
Proof.
  split; [reflexivity|]. split; [reflexivity|]. split; [reflexivity|].
  vm_compute. discriminate.
Qed.

(** C10. The output of the Underscore formatter, and of the Color
    formatter, is the same for any two source identifiers and any two line
    numbers, the line and the match sequence being the same. *)
Theorem underscore_color_ignore_source
    (file_name1 file_name2 line : str) (line_no1 line_no2 : nat)
    (matches : list Match) (w : World) :
  UnderscoreFormatter_format file_name1 line line_no1 matches w
  = UnderscoreFormatter_format file_name2 line line_no2 matches w
  /\ ColorFormatter_format file_name1 line line_no1 matches w
     = ColorFormatter_format file_name2 line line_no2 matches w.
Proof. split; reflexivity. Qed.

(** * Facts about the run *)

Lemma quiet_print_end text e : quiet (print_end text e).
Proof. intros w. eexists. split; reflexivity. Qed.

Lemma quiet_bind c1 c2 : quiet c1 -> quiet c2 -> quiet (bind c1 (fun _ => c2)).
Proof.
  intros H1 H2 w. destruct (H1 w) as (w1 & E1 & O1).
  destruct (H2 w1) as (w2 & E2 & O2).
  exists w2. rewrite (bind_return _ _ E1). split; congruence.
Qed.

Lemma quiet_for_each {A : Type} (body : A -> Py unit) (xs : list A) :
  (forall x, quiet (body x)) -> quiet (for_each xs body).
Proof.
  intros Hb. induction xs as [|x xs IH].
  - intros w. exists w. split; reflexivity.
  - apply quiet_bind; auto.
Qed.

Lemma quiet_output_formatted_data self file_name line line_no matches :
  quiet (output_formatted_data self file_name line line_no matches).
Proof.
  unfold output_formatted_data.
  destruct (underscore self); [|destruct (color self); [|destruct (machine self)]].
  - unfold UnderscoreFormatter_format.
    destruct (fold_left _ _ _). apply quiet_bind; apply quiet_print_end.
  - unfold ColorFormatter_format.
    destruct (fold_left _ _ _). apply quiet_bind; apply quiet_print_end.
  - intros w. eexists. split; reflexivity.
  - apply quiet_for_each. intros m. apply quiet_print_end.
Qed.

Lemma quiet_search_matches self file file_name :
  quiet (search_matches self file file_name).
Proof.
  apply quiet_for_each. intros [line_no raw].
  apply quiet_output_formatted_data.
Qed.

Lemma for_each_ext {A : Type} (f g : A -> Py unit) (xs : list A) :
  (forall x w, f x w = g x w) -> forall w, for_each xs f w = for_each xs g w.
Proof.
  intros Hfg. induction xs as [|x xs IH]; intros w; simpl; [reflexivity|].
  unfold bind. rewrite Hfg. destruct (g x w) as [[[]| |] w1]; auto.
Qed.

(** With the underline or the colour display, the output for a source does
    not depend on its name. *)
Lemma search_matches_ignores_source self file file_name1 file_name2 w :
  underscore self = true \/ color self = true ->
  search_matches self file file_name1 w = search_matches self file file_name2 w.
Proof.
  intros H. unfold search_matches. apply for_each_ext.
  intros [line_no raw] w'. unfold output_formatted_data.
  destruct (underscore self); [reflexivity|].
  destruct (color self); [reflexivity|].
  destruct H; discriminate.
Qed.

Lemma for_each_app {A : Type} (body : A -> Py unit) (xs ys : list A) : forall w w',
  for_each xs body w = (Return tt, w') ->
  for_each (xs ++ ys) body w = for_each ys body w'.
Proof.
  induction xs as [|x xs IH]; intros w w' H; simpl in *.
  - injection H as <-. reflexivity.
  - unfold bind in *. destruct (body x w) as [[[]| |] w1]; try discriminate.
    apply IH, H.
Qed.

(** Files that exist are opened and searched one after the other. *)
Lemma for_each_existing env self names : forall w,
  Forall (fun name => file_system env name <> None) names ->
  exists w',
    for_each names (fun file_name =>
      match file_system env file_name with
      | None => print (of_string "File not found error: " ++ file_name) ;; exit
      | Some file => open_read file_name ;; search_matches self file file_name
      end) w = (Return tt, w')
    /\ opened w' = opened w ++ names.
Proof.
  induction names as [|name names IH]; intros w H.
  - exists w. split; [reflexivity | symmetry; apply app_nil_r].
  - inversion H as [|? ? Hname Hnames]; subst. simpl.
    destruct (file_system env name) as [file|]; [|congruence].
    destruct (quiet_search_matches self file name
                (snd (open_read name w))) as (w1 & E1 & O1).
    destruct (IH w1 Hnames) as (w2 & E2 & O2).
    exists w2. split.
    + unfold bind at 1. unfold bind at 1. simpl in E1. simpl. rewrite E1.
      exact E2.
    + rewrite O2, O1. simpl. rewrite <- app_assoc. reflexivity.
Qed.

(** C2 (as amended). If compiling the regular expression fails with a
    syntax error, the program prints [Invalid regular expression] and ends
    by [exit()], before it opens or processes any source: no file is
    opened and nothing else is written.  [exit()] is called without an
    exit code, so the exit status of the process is 0. *)
Theorem invalid_pattern_exits (env : Env) (args : Args) (w : World) :
  compile (regular_expression args) = ReError ->
  main env args w
  = (SystemExit None,
     wrote w [of_string "Invalid regular expression" ++ [newline]] [])
  /\ exit_status (fst (main env args w)) = Some 0%Z
  /\ opened (snd (main env args w)) = opened w
  /\ json_output_file (snd (main env args w)) = json_output_file w.
Proof.
  intros H.
  assert (E : main env args w
              = (SystemExit None,
                 wrote w [of_string "Invalid regular expression" ++ [newline]] [])).
  { unfold main. rewrite H. unfold bind.
    rewrite print_wrote. reflexivity. }
  rewrite E. simpl. rewrite app_nil_r. auto.
Qed.

Lemma invalid_pattern_exits_witness :
  main example_env (example_args "(" (Some [of_string "a.txt"])) empty_world
  = (SystemExit None,
     wrote empty_world [of_string "Invalid regular expression" ++ [newline]] []).
Proof.
  apply (invalid_pattern_exits example_env
           (example_args "(" (Some [of_string "a.txt"])) empty_world).
  reflexivity.
Defined.

(** C2 (as stated) fails: for the pattern [(] the exit status is 0, not a
    status other than 0. *)
Lemma invalid_pattern_exit_status_zero :
  compile "(" = ReError
  /\ exit_status
       (fst (main example_env (example_args "(" (Some [of_string "a.txt"]))
               empty_world))
     = Some 0%Z
  /\ ~ (exists code,
          exit_status
            (fst (main example_env (example_args "(" (Some [of_string "a.txt"]))
                    empty_world))
          = Some code
          /\ code <> 0%Z).
Proof.
  split; [reflexivity|]. split; [reflexivity|].
  intros (code & H & Hcode). vm_compute in H. congruence.
Qed.

(** C7 (as amended). When a named input file does not exist, the run stops
    at that file: the files listed before it have been processed as in a
    run on them alone, then [File not found error: <name>] is printed and
    the process ends by [exit()]; no file listed after the missing one is
    opened, read or formatted.  [exit()] is called without an exit code, so
    the exit status of the process is 0. *)
Theorem missing_file_aborts (env : Env) (args : Args) (p : regex)
    (before : list str) (missing : str) (after : list str) (w : World) :
  compile (regular_expression args) = Compiled p ->
  arg_files args = Some (before ++ missing :: after) ->
  Forall (fun name => file_system env name <> None) before ->
  file_system env missing = None ->
  exists w',
    main env (with_files args before) w = (Return tt, w')
    /\ main env args w
       = (SystemExit None,
          wrote w' [of_string "File not found error: " ++ missing ++ [newline]] [])
    /\ opened (snd (main env args w)) = opened w ++ before
    /\ exit_status (fst (main env args w)) = Some 0%Z.
Proof.
  intros Hp Hfiles Hbefore Hmissing.
  set (self := {| pattern := p; files := arg_files args;
                  underscore := arg_underscore args;
                  color := arg_color args;
                  machine := arg_machine args |}).
  destruct (for_each_existing env self before w Hbefore) as (w' & E & O).
  exists w'.
  assert (E1 : main env (with_files args before) w = (Return tt, w')).
  { unfold main, with_files.
    cbn [regular_expression arg_files arg_underscore arg_color arg_machine].
    rewrite Hp. exact E. }
  assert (E2 : main env args w
               = (SystemExit None,
                  wrote w' [of_string "File not found error: " ++ missing
                            ++ [newline]] [])).
  { unfold main. rewrite Hp. fold self. unfold get_content.
    change (files self) with (arg_files args). rewrite Hfiles.
    rewrite (for_each_app _ before (missing :: after) w w' E).
    simpl. rewrite Hmissing. unfold bind.
    rewrite print_wrote. reflexivity. }
  split; [exact E1|]. split; [exact E2|].
  rewrite E2. simpl. auto.
Qed.

Lemma missing_file_aborts_witness :
  exists w',
    main example_env
      (with_files (example_args "\d+" (Some [of_string "a.txt"; of_string "nofile.txt";
                                             of_string "a.txt"]))
         [of_string "a.txt"]) empty_world
    = (Return tt, w')
    /\ main example_env
         (example_args "\d+" (Some [of_string "a.txt"; of_string "nofile.txt";
                                    of_string "a.txt"])) empty_world
       = (SystemExit None,
          wrote w' [of_string "File not found error: " ++ of_string "nofile.txt"
                    ++ [newline]] [])
    /\ opened (snd (main example_env
                      (example_args "\d+" (Some [of_string "a.txt";
                                                 of_string "nofile.txt";
                                                 of_string "a.txt"])) empty_world))
       = opened empty_world ++ [of_string "a.txt"]
    /\ exit_status
         (fst (main example_env
                 (example_args "\d+" (Some [of_string "a.txt"; of_string "nofile.txt";
                                            of_string "a.txt"])) empty_world))
       = Some 0%Z.
Proof.
  apply (missing_file_aborts example_env
           (example_args "\d+" (Some [of_string "a.txt"; of_string "nofile.txt";
                                      of_string "a.txt"]))
           (Plus Digit) [of_string "a.txt"] "nofile.txt" [of_string "a.txt"]
           empty_world).
  - reflexivity.
  - reflexivity.
  - constructor; [discriminate | constructor].
  - reflexivity.
Defined.

(** C7 (as stated) fails: with the files [nofile.txt] and [a.txt], of which
    the first does not exist, the run prints the error and opens no file,
    and its exit status is 0, not a status other than 0. *)
Lemma missing_file_exit_status_zero :
  main example_env
    (example_args "\d+" (Some [of_string "nofile.txt"; of_string "a.txt"]))
    empty_world
  = (SystemExit None,
     wrote empty_world
       [of_string "File not found error: nofile.txt" ++ [newline]] [])
  /\ ~ (exists code,
          exit_status
            (fst (main example_env
                    (example_args "\d+" (Some [of_string "nofile.txt";
                                               of_string "a.txt"]))
                    empty_world))
          = Some code
          /\ code <> 0%Z).
Proof.
  split; [reflexivity|].
  intros (code & H & Hcode). vm_compute in H. congruence.
Qed.

(** * Further facts about runs *)

Lemma bind_ret_tt (c : Py unit) w : bind c (fun _ => ret tt) w = c w.
Proof.
  unfold bind, ret. destruct (c w) as [[[]| |] w']; reflexivity.
Qed.

Lemma bind_assoc {A B C : Type} (c : Py A) (k1 : A -> Py B) (k2 : B -> Py C) w :
  bind (bind c k1) k2 w = bind c (fun a => bind (k1 a) k2) w.
Proof.
  unfold bind. destruct (c w) as [[a| |] w']; reflexivity.
Qed.

Lemma bind_ext {A B : Type} (c : Py A) (k1 k2 : A -> Py B) w :
  (forall a w', k1 a w' = k2 a w') -> bind c k1 w = bind c k2 w.
Proof.
  intros H. unfold bind. destruct (c w) as [[a| |] w']; auto.
Qed.

Lemma for_each_snoc {A : Type} (body : A -> Py unit) (xs : list A) (x : A) :
  forall w,
    for_each (xs ++ [x]) body w = bind (for_each xs body) (fun _ => body x) w.
Proof.
  induction xs as [|y xs IH]; intros w; simpl.
  - rewrite bind_ret_tt. reflexivity.
  - rewrite bind_assoc. apply bind_ext. intros _ w'. apply IH.
Qed.

Lemma combine_snoc {A B : Type} (xs : list A) : forall (ys : list B) a b,
  length xs = length ys ->
  combine (xs ++ [a]) (ys ++ [b]) = combine xs ys ++ [(a, b)].
Proof.
  induction xs as [|x xs IH]; intros [|y ys] a b H; try discriminate.
  - reflexivity.
  - simpl. rewrite IH; auto.
Qed.

Lemma map_enumerate1 {B : Type} (f : str -> B) (file : list str) :
  map (fun '(_, raw) => f raw) (enumerate1 file) = map f file.
Proof.
  unfold enumerate1. generalize 1.
  induction file as [|raw file IH]; intros n; simpl; [reflexivity|].
  rewrite IH. reflexivity.
Qed.

Lemma enumerate1_snoc (file : list str) (raw : str) :
  enumerate1 (file ++ [raw]) = enumerate1 file ++ [(S (length file), raw)].
Proof.
  unfold enumerate1. rewrite length_app, seq_app. simpl.
  apply combine_snoc. apply length_seq.
Qed.

(** A loop whose body only appends, appends what the bodies append, in
    order. *)
Lemma for_each_wrote {A : Type} (body : A -> Py unit)
    (out : A -> list str) (text : A -> str) (xs : list A) :
  (forall x w, body x w = (Return tt, wrote w (out x) (text x))) ->
  forall w,
    for_each xs body w
    = (Return tt, wrote w (concat (map out xs)) (concat (map text xs))).
Proof.
  intros Hb. induction xs as [|x xs IH]; intros w; simpl.
  - rewrite wrote_nil. reflexivity.
  - rewrite (bind_return _ _ (Hb x w)), IH, wrote_wrote. reflexivity.
Qed.

Lemma concat_map_nil {A B : Type} (xs : list A) :
  concat (map (fun _ : A => @nil B) xs) = [].
Proof. induction xs; simpl; auto. Qed.

Lemma appends_print_end text e : appends (print_end text e).
Proof. eexists. eexists. intros w. apply print_end_wrote. Qed.

Lemma appends_bind c1 c2 : appends c1 -> appends c2 -> appends (bind c1 (fun _ => c2)).
Proof.
  intros (a1 & t1 & E1) (a2 & t2 & E2).
  exists (a1 ++ a2), (t1 ++ t2). intros w.
  rewrite (bind_return _ _ (E1 w)), E2, wrote_wrote. reflexivity.
Qed.

Lemma appends_for_each {A : Type} (body : A -> Py unit) (xs : list A) :
  (forall x, appends (body x)) -> appends (for_each xs body).
Proof.
  intros Hb. induction xs as [|x xs IH].
  - exists [], []. intros w. rewrite wrote_nil. reflexivity.
  - apply appends_bind; auto.
Qed.

Lemma appends_output_formatted_data self file_name line line_no matches :
  appends (output_formatted_data self file_name line line_no matches).
Proof.
  unfold output_formatted_data.
  destruct (underscore self); [|destruct (color self); [|destruct (machine self)]].
  - unfold UnderscoreFormatter_format.
    destruct (fold_left _ _ _). apply appends_bind; apply appends_print_end.
  - unfold ColorFormatter_format.
    destruct (fold_left _ _ _). apply appends_bind; apply appends_print_end.
  - eexists. eexists. intros w. apply append_wrote.
  - apply appends_for_each. intros m. apply appends_print_end.
Qed.

Lemma search_matches_appends_lemma self file file_name :
  appends (search_matches self file file_name).
Proof.
  apply appends_for_each. intros [line_no raw].
  apply appends_output_formatted_data.
Qed.


(** X2. Line numbers count the lines of a source from 1: searching a source
    with one more line at its end is searching the source and then
    formatting the matches of that line, cleared of its line end, under the
    number of lines of the source plus one. *)
Theorem search_matches_last_line (self : RegularExpressionFinder)
    (file : list str) (raw file_name : str) (w : World) :
  search_matches self (file ++ [raw]) file_name w
  = bind (search_matches self file file_name)
      (fun _ => output_formatted_data self file_name (remove_newlines raw)
                  (S (length file))
                  (finditer (pattern self) (remove_newlines raw))) w.
Proof.
  unfold search_matches. rewrite enumerate1_snoc, for_each_snoc.
  reflexivity.
Qed.

(** X3. With the plain listing, a source yields one printed line for each
    match, line after line and match after match within a line, each with
    the name of the source and the number of its line; nothing is written
    to the output file. *)
Theorem default_run_lines (p : regex) (names : option (list str))
    (file : list str) (file_name : str) (w : World) :
  search_matches (finder p names false false false) file file_name w
  = (Return tt,
     wrote w
       (flat_map (fun '(line_no, raw) =>
                    map (fun m => default_line file_name line_no (group m)
                                  ++ [newline])
                        (finditer p (remove_newlines raw)))
                 (enumerate1 file)) []).
Proof.
  unfold search_matches.
  rewrite (for_each_wrote _
             (fun '(line_no, raw) =>
                map (fun m => default_line file_name line_no (group m) ++ [newline])
                    (finditer p (remove_newlines raw)))
             (fun _ => [])).
  - rewrite concat_map_nil, flat_map_concat_map. reflexivity.
  - intros [line_no raw] w'.
    apply (for_each_print (fun m => default_line file_name line_no (group m))).
Qed.

(** X4. With the machine display, a source prints nothing and appends to
    the output file one JSON array for each of its lines, in order: the
    array of the record strings of the matches of the line, [[]] for a line
    without a match. *)
Theorem machine_run_arrays (p : regex) (names : option (list str))
    (file : list str) (file_name : str) (w : World) :
  search_matches (finder p names false false true) file file_name w
  = (Return tt,
     wrote w []
       (concat (map (fun '(line_no, raw) =>
                       json_dump (map (fun m => record_string file_name line_no
                                                  (start m) (group m))
                                      (finditer p (remove_newlines raw))))
                    (enumerate1 file)))).
Proof.
  unfold search_matches.
  rewrite (for_each_wrote _ (fun _ => [])
             (fun '(line_no, raw) =>
                json_dump (map (fun m => record_string file_name line_no
                                           (start m) (group m))
                               (finditer p (remove_newlines raw))))).
  - rewrite concat_map_nil. reflexivity.
  - intros [line_no raw] w'. apply append_wrote.
Qed.

Lemma caret_line_length ms : length (caret_line ms) = last_end 0 ms.
Proof. unfold caret_line. rewrite length_map, length_seq. reflexivity. Qed.

Lemma scanned_last_end line ms : forall c must,
  c <= length line -> scanned line c must ms -> last_end c ms <= length line.
Proof.
  induction ms as [|m ms IH]; intros c must Hc H; [exact Hc|].
  destruct H as (_ & (_ & H2 & _) & _ & H).
  rewrite last_end_cons. eapply IH; eauto.
Qed.

(** X5. With the underline display, every line of a source is echoed,
    whether it has a match or not, and followed by its line of carets: the
    source yields two printed lines for each of its lines.  The line of
    carets of a line is never longer than the line. *)
Theorem underscore_run_echo (p : regex) (names : option (list str))
    (file : list str) (file_name : str) (w : World) :
  search_matches (finder p names true false false) file file_name w
  = (Return tt,
     wrote w
       (flat_map (fun raw =>
                    [remove_newlines raw ++ [newline];
                     caret_line (finditer p (remove_newlines raw)) ++ [newline]])
                 file) [])
  /\ Forall (fun raw =>
               length (caret_line (finditer p (remove_newlines raw)))
               <= length (remove_newlines raw)) file.
Proof.
  split.
  - unfold search_matches.
    rewrite (for_each_wrote _
               (fun '(line_no, raw) =>
                  [remove_newlines raw ++ [newline];
                   caret_line (finditer p (remove_newlines raw)) ++ [newline]])
               (fun _ => [])).
    + rewrite concat_map_nil, !flat_map_concat_map.
      rewrite (map_enumerate1 (fun raw =>
                 [remove_newlines raw ++ [newline];
                  caret_line (finditer p (remove_newlines raw)) ++ [newline]])).
      reflexivity.
    + intros [line_no raw] w'.
      unfold output_formatted_data, finder. cbn [underscore pattern].
      unfold UnderscoreFormatter_format.
      rewrite (underscore_fold _ 0 [] (finditer_in_order p (remove_newlines raw))).
      rewrite Nat.sub_0_r.
      rewrite (bind_return _ _ (print_wrote _ w')), print_wrote, wrote_wrote.
      reflexivity.
  - apply Forall_forall. intros raw _.
    rewrite caret_line_length.
    apply (scanned_last_end (remove_newlines raw) _ 0 false); [lia|].
    apply finditer_scanned.
Qed.

Lemma strip_colored_rest line ms rest : forall c,
  color_free line = true ->
  in_order c ms ->
  strip_from 0 (colored line c ms ++ slice_from line (last_end c ms)
                ++ newline :: rest)
  = slice_from line c ++ newline :: strip_from 0 rest.
Proof.
  unfold slice_from.
  induction ms as [|m ms IH]; intros c Hfree H.
  - unfold last_end. simpl.
    rewrite strip_from_text; [reflexivity | | simpl; auto].
    apply color_free_skipn, Hfree.
  - destruct H as (H1 & H2 & H).
    rewrite last_end_cons. cbn [colored].
    rewrite <- !app_assoc.
    rewrite strip_from_text;
      [| apply color_free_slice, Hfree | simpl; auto].
    rewrite strip_color_on.
    rewrite strip_from_text;
      [| apply color_free_slice, Hfree | simpl; auto].
    rewrite strip_color_off.
    rewrite (IH _ Hfree H).
    rewrite !app_assoc. f_equal.
    rewrite <- app_assoc, slice_skipn by auto.
    apply slice_skipn; auto.
Qed.

(** X6. With the colour display, a source whose lines hold no colour
    sequence is printed back in full: deleting the colour sequences from
    all that the source prints gives its lines, each cleared of line breaks
    and ended by one, in order; nothing is written to the output file. *)
Theorem color_run_strip (p : regex) (names : option (list str))
    (file : list str) (file_name : str) (w : World) :
  Forall (fun raw => color_free (remove_newlines raw) = true) file ->
  exists chunks,
    search_matches (finder p names false true false) file file_name w
    = (Return tt, wrote w chunks [])
    /\ strip_color (concat chunks)
       = flat_map (fun raw => remove_newlines raw ++ [newline]) file.
Proof.
  intros Hfree.
  exists (flat_map (fun raw =>
            [colored (remove_newlines raw) 0 (finditer p (remove_newlines raw));
             slice_from (remove_newlines raw)
               (last_end 0 (finditer p (remove_newlines raw))) ++ [newline]])
          file).
  split.
  - unfold search_matches.
    rewrite (for_each_wrote _
               (fun '(line_no, raw) =>
                  [colored (remove_newlines raw) 0 (finditer p (remove_newlines raw));
                   slice_from (remove_newlines raw)
                     (last_end 0 (finditer p (remove_newlines raw))) ++ [newline]])
               (fun _ => [])).
    + rewrite concat_map_nil, !flat_map_concat_map.
      rewrite (map_enumerate1 (fun raw =>
                 [colored (remove_newlines raw) 0 (finditer p (remove_newlines raw));
                  slice_from (remove_newlines raw)
                    (last_end 0 (finditer p (remove_newlines raw))) ++ [newline]])).
      reflexivity.
    + intros [line_no raw] w'.
      unfold output_formatted_data, finder. cbn [underscore color pattern].
      unfold ColorFormatter_format. rewrite color_fold. simpl app.
      rewrite (bind_return _ _ (print_end_wrote _ _ w')), print_wrote, wrote_wrote.
      rewrite app_nil_r. reflexivity.
  - unfold strip_color.
    induction file as [|raw file IH]; [reflexivity|].
    inversion Hfree as [|? ? Hraw Hfile]; subst.
    cbn [flat_map concat app].
    rewrite <- !app_assoc. cbn [app].
    rewrite (strip_colored_rest (remove_newlines raw) _ _ 0 Hraw
               (finditer_in_order p (remove_newlines raw))).
    rewrite (IH Hfile). reflexivity.
Qed.

Lemma color_run_strip_witness :
  exists chunks,
    search_matches (finder (Plus Digit) None false true false)
      [of_string "id7 and 88" ++ [newline]; of_string "none"] "a.txt" empty_world
    = (Return tt, wrote empty_world chunks [])
    /\ strip_color (concat chunks)
       = flat_map (fun raw => remove_newlines raw ++ [newline])
           [of_string "id7 and 88" ++ [newline]; of_string "none"].
Proof.
  apply (color_run_strip (Plus Digit) None
           [of_string "id7 and 88" ++ [newline]; of_string "none"] "a.txt"
           empty_world).
  repeat constructor.
Defined.

Lemma keeps_bind {A B : Type} (c : Py A) (k : A -> Py B) :
  keeps_artifact c -> (forall a, keeps_artifact (k a)) -> keeps_artifact (bind c k).
Proof.
  intros Hc Hk w. unfold bind. specialize (Hc w).
  destruct (c w) as [[a| |] w']; simpl in *; auto.
  rewrite Hk. exact Hc.
Qed.

Lemma keeps_print_end text e : keeps_artifact (print_end text e).
Proof. intros w. reflexivity. Qed.

Lemma keeps_for_each {A : Type} (body : A -> Py unit) (xs : list A) :
  (forall x, keeps_artifact (body x)) -> keeps_artifact (for_each xs body).
Proof.
  intros Hb. induction xs as [|x xs IH].
  - intros w. reflexivity.
  - apply keeps_bind; auto.
Qed.

Lemma keeps_search_matches self file file_name :
  underscore self = true \/ color self = true \/ machine self = false ->
  keeps_artifact (search_matches self file file_name).
Proof.
  intros H. apply keeps_for_each. intros [line_no raw].
  unfold output_formatted_data.
  destruct (underscore self);
    [|destruct (color self); [|destruct (machine self)]].
  - unfold UnderscoreFormatter_format.
    destruct (fold_left _ _ _). apply keeps_bind; intros; apply keeps_print_end.
  - unfold ColorFormatter_format.
    destruct (fold_left _ _ _). apply keeps_bind; intros; apply keeps_print_end.
  - destruct H as [H | [H | H]]; discriminate.
  - apply keeps_for_each. intros m. apply keeps_print_end.
Qed.

(** X7. Only the machine display writes to the output file: when the
    underline or the colour display is selected, or the machine display is
    not, a run leaves [json_output_file.json] as it was, however the run
    ends (normally, on an invalid pattern or on a missing file). *)
Theorem artifact_only_in_machine_mode (env : Env) (args : Args) (w : World) :
  arg_underscore args = true \/ arg_color args = true \/ arg_machine args = false ->
  json_output_file (snd (main env args w)) = json_output_file w.
Proof.
  intros H. unfold main.
  destruct (compile (regular_expression args)) as [p| |].
  - unfold get_content. cbn [files].
    destruct (arg_files args) as [names|].
    + apply keeps_for_each. intros file_name.
      destruct (file_system env file_name) as [file|].
      * apply keeps_bind; [intros w'; reflexivity|].
        intros _. apply keeps_search_matches. exact H.
      * apply keeps_bind; [apply keeps_print_end|].
        intros _ w'. reflexivity.
    + apply keeps_bind; [apply keeps_print_end|].
      intros _. apply keeps_search_matches. exact H.
  - apply keeps_bind; [apply keeps_print_end|].
    intros _ w'. reflexivity.
  - reflexivity.
Qed.

Lemma artifact_only_in_machine_mode_witness :
  json_output_file
    (snd (main example_env
            {| regular_expression := "\d+";
               arg_files := Some [of_string "a.txt"; of_string "nofile.txt"];
               arg_underscore := true; arg_color := false; arg_machine := true |}
            empty_world))
  = json_output_file empty_world.
Proof.
  apply (artifact_only_in_machine_mode example_env
           {| regular_expression := "\d+";
              arg_files := Some [of_string "a.txt"; of_string "nofile.txt"];
              arg_underscore := true; arg_color := false; arg_machine := true |}
           empty_world).
  left. reflexivity.
Defined.



(** X9. Without named files the run reads standard input: it prints the
    prompt first, then only adds to the output, opens no file, does not
    look at the file system, and ends normally. *)
Theorem stdin_run (env : Env) (args : Args) (p : regex) (w : World) :
  compile (regular_expression args) = Compiled p ->
  arg_files args = None ->
  (exists chunks text,
     main env args w
     = (Return tt, wrote w ((stdin_prompt ++ [newline]) :: chunks) text))
  /\ forall fs,
       main {| file_system := fs; stdin := stdin env |} args w = main env args w.
Proof.
  intros Hp Hfiles. split.
  - unfold main. rewrite Hp. unfold get_content. cbn [files]. rewrite Hfiles.
    rewrite (bind_return _ _ (print_wrote stdin_prompt w)).
    destruct (search_matches_appends_lemma
                {| pattern := p; files := None;
                   underscore := arg_underscore args;
                   color := arg_color args;
                   machine := arg_machine args |}
                (stdin env) "STDIN") as (chunks & text & E).
    exists chunks, text. rewrite E, wrote_wrote. reflexivity.
  - intros fs. unfold main. rewrite Hp. unfold get_content. cbn [files].
    rewrite Hfiles. reflexivity.
Qed.

Lemma stdin_run_witness :
  exists chunks text,
    main example_env (example_args "a+" None) empty_world
    = (Return tt, wrote empty_world ((stdin_prompt ++ [newline]) :: chunks) text).
Proof.
  apply (stdin_run example_env (example_args "a+" None) (Plus (Lit "a")) empty_world);
    reflexivity.
Defined.

(** * The matcher against what a pattern matches *)

Section MatcherSemantics.

Variable line : str.

Lemma step_char_some p i k e :
  step_char line p i k = Some e ->
  exists c, nth_error line i = Some c /\ p c = true /\ S i <= length line
            /\ k (S i) = Some e.
Proof.
  unfold step_char. intros H.
  destruct (nth_error line i) as [c|] eqn:Hc; [|discriminate].
  destruct (p c) eqn:Hp; [|discriminate].
  exists c. repeat split; auto.
  apply nth_error_Some. congruence.
Qed.

Lemma step_char_complete p i k c e :
  nth_error line i = Some c -> p c = true -> k (S i) = Some e ->
  step_char line p i k = Some e.
Proof. intros Hc Hp Hk. unfold step_char. rewrite Hc, Hp. exact Hk. Qed.

(** What is matched lies inside the line, to the right. *)
Lemma matches_bounds r i j :
  matches line r i j -> i <= length line -> i <= j /\ j <= length line.
Proof.
  induction 1; intros Hi;
    try match goal with
        | H : nth_error _ _ = Some _ |- _ =>
            assert (i < length line) by (apply nth_error_Some; congruence)
        end;
    repeat match goal with
           | IH : ?a <= length line -> _ /\ _ |- _ =>
               let H := fresh in
               assert (H : a <= length line) by lia;
               destruct (IH H); clear IH
           end;
    lia.
Qed.

Lemma max_until_sound r fuel :
  (forall i k e, i <= length line -> sre_match line r i k = Some e ->
     exists j, matches line r i j /\ i <= j /\ j <= length line /\ k j = Some e) ->
  forall i k e, i <= length line ->
    max_until (sre_match line r) k fuel i = Some e ->
    exists j, matches line (Star r) i j /\ i <= j /\ j <= length line
              /\ k j = Some e.
Proof.
  intros Hb. induction fuel as [|fuel IH]; intros i k e Hi H;
    rewrite max_until_eq in H.
  - destruct (sre_match line r i _) as [e'|] eqn:Hbody.
    + injection H as <-. apply Hb in Hbody; auto.
      destruct Hbody as (j & Hm & Hij & Hj & Hk).
      destruct (Nat.eqb_spec j i); [|discriminate].
      exists j. repeat split; auto.
      eapply M_StarS; [exact Hm | apply M_Star0].
    + exists i. repeat split; auto. apply M_Star0.
  - destruct (sre_match line r i _) as [e'|] eqn:Hbody.
    + injection H as <-. apply Hb in Hbody; auto.
      destruct Hbody as (j & Hm & Hij & Hj & Hk).
      destruct (Nat.eqb_spec j i).
      * exists j. repeat split; auto.
        eapply M_StarS; [exact Hm | apply M_Star0].
      * apply IH in Hk; auto. destruct Hk as (j' & Hm' & ? & ? & ?).
        exists j'. repeat split; auto; try lia.
        eapply M_StarS; eauto.
    + exists i. repeat split; auto. apply M_Star0.
Qed.

(** The matcher is sound: the rest of the pattern is reached only through
    a match of the pattern. *)
Lemma sre_match_sound r : forall i k e,
  i <= length line -> sre_match line r i k = Some e ->
  exists j, matches line r i j /\ i <= j /\ j <= length line /\ k j = Some e.
Proof.
  induction r; intros i k e Hi H; simpl in H.
  - exists i. repeat split; auto. constructor.
  - apply step_char_some in H. destruct H as (c' & Hc & Hp & Hl & Hk).
    apply Ascii.eqb_eq in Hp. subst c'.
    exists (S i). repeat split; auto. constructor. exact Hc.
  - apply step_char_some in H. destruct H as (c' & Hc & Hp & Hl & Hk).
    exists (S i). repeat split; auto. apply M_Any with c'; auto.
    apply negb_true_iff in Hp. apply Ascii.eqb_neq. exact Hp.
  - apply step_char_some in H. destruct H as (c' & Hc & Hp & Hl & Hk).
    exists (S i). repeat split; auto. apply M_Digit with c'; auto.
  - apply step_char_some in H. destruct H as (c' & Hc & Hp & Hl & Hk).
    exists (S i). repeat split; auto. apply M_Word with c'; auto.
  - destruct (Nat.eqb_spec i 0); [|discriminate]. subst.
    exists 0. repeat split; auto. constructor.
  - destruct (at_end line i) eqn:E; [|discriminate].
    exists i. repeat split; auto. constructor. exact E.
  - destruct (at_boundary line i) eqn:E; [|discriminate].
    exists i. repeat split; auto. constructor. exact E.
  - apply IHr1 in H; auto. destruct H as (j & Hm1 & ? & ? & H).
    apply IHr2 in H; auto. destruct H as (j' & Hm2 & ? & ? & H).
    exists j'. repeat split; auto; try lia. econstructor; eauto.
  - destruct (sre_match line r1 i k) eqn:H1.
    + injection H as <-. apply IHr1 in H1; auto.
      destruct H1 as (j & ? & ? & ? & ?).
      exists j. repeat split; auto. apply M_Alt1. auto.
    + apply IHr2 in H; auto. destruct H as (j & ? & ? & ? & ?).
      exists j. repeat split; auto. apply M_Alt2. auto.
  - apply (max_until_sound r (length line) IHr); auto.
  - apply IHr in H; auto. destruct H as (j & Hm1 & ? & ? & H).
    apply (max_until_sound r (length line) IHr) in H; auto.
    destruct H as (j' & Hm2 & ? & ? & H).
    exists j'. repeat split; auto; try lia. econstructor; eauto.
  - destruct (sre_match line r i k) eqn:H1.
    + injection H as <-. apply IHr in H1; auto.
      destruct H1 as (j & ? & ? & ? & ?).
      exists j. repeat split; auto. apply M_Opt1. auto.
    + exists i. repeat split; auto. apply M_Opt0.
  - apply IHr in H; auto. destruct H as (j & ? & ? & ? & ?).
    exists j. repeat split; auto. constructor. auto.
Qed.

(** The matcher is complete: when the pattern matches up to an offset from
    which the rest of the pattern succeeds, the matcher succeeds. *)
Lemma sre_match_complete r i j :
  matches line r i j -> i <= length line ->
  forall k, (exists e, k j = Some e) -> exists e, sre_match line r i k = Some e.
Proof.
  induction 1; intros Hi k0 (e & Hk); simpl.
  - eauto.
  - exists e. eapply step_char_complete; eauto. apply Ascii.eqb_refl.
  - exists e. eapply step_char_complete; eauto.
    apply negb_true_iff, Ascii.eqb_neq. auto.
  - exists e. eapply step_char_complete; eauto.
  - exists e. eapply step_char_complete; eauto.
  - eauto.
  - rewrite H. eauto.
  - rewrite H. eauto.
  - pose proof (matches_bounds _ _ _ H Hi) as (? & ?).
    apply IHmatches1; auto. apply IHmatches2; eauto.
  - destruct (IHmatches Hi k0) as (e' & ->); eauto.
  - destruct (sre_match line r1 i k0); eauto.
  - rewrite max_until_eq. destruct (sre_match line r i _); eauto.
  - pose proof (matches_bounds _ _ _ H Hi) as (Hij & Hj).
    destruct (Nat.eq_dec j i) as [->|Hne].
    + apply IHmatches2; eauto.
    + rewrite max_until_eq.
      destruct (IHmatches1 Hi
                  (fun j0 => if j0 =? i then k0 j0
                             else match length line with
                                  | 0 => None
                                  | S fuel' =>
                                      max_until (sre_match line r) k0 fuel' j0
                                  end)) as (e' & ->); eauto.
      destruct (Nat.eqb_spec j i); [contradiction|].
      destruct (length line) as [|len'] eqn:Hlen; [lia|].
      rewrite <- Hlen in *.
      rewrite (max_until_fuel line (sre_match line r) k0 (sre_match_local line r)
                 len' (length line) j) by lia.
      apply (IHmatches2 Hj k0). eauto.
  - pose proof (matches_bounds _ _ _ H Hi) as (Hij & Hj).
    apply IHmatches1; auto. apply (IHmatches2 Hj k0). eauto.
  - destruct (sre_match line r i k0); eauto.
  - destruct (IHmatches Hi k0) as (e' & ->); eauto.
  - apply IHmatches; eauto.
Qed.

Lemma match_at_sound r must ptr e :
  ptr <= length line -> match_at line r must ptr = Some e ->
  matches line r ptr e.
Proof.
  intros Hp H. unfold match_at in H. apply sre_match_sound in H; auto.
  destruct H as (j & Hm & _ & _ & H). unfold success in H.
  destruct (must && (j =? ptr)); [discriminate|].
  injection H as <-. exact Hm.
Qed.

Lemma match_at_complete r ptr j :
  ptr <= length line -> matches line r ptr j ->
  exists e, match_at line r false ptr = Some e.
Proof.
  intros Hp H. unfold match_at.
  apply (sre_match_complete _ _ _ H Hp). exists j. reflexivity.
Qed.

(** A search that may begin with an empty match finds the leftmost offset
    at which the pattern matches, or reports that there is none. *)
Lemma sre_search_leftmost r n : forall ptr,
  ptr + n = length line ->
  match sre_search line r n false ptr with
  | Some (s, e) =>
      matches line r s e
      /\ forall i j, ptr <= i -> matches line r i j -> s <= i
  | None => forall i j, ptr <= i -> i <= length line -> ~ matches line r i j
  end.
Proof.
  induction n as [|n IH]; intros ptr Hn; simpl;
    assert (Hp : ptr <= length line) by lia.
  - destruct (match_at line r false ptr) as [e|] eqn:Hm.
    + split; [apply (match_at_sound r false ptr e Hp Hm) | auto].
    + intros i j Hi Hl Hmi. assert (i = ptr) by lia. subst i.
      destruct (match_at_complete r ptr j Hp Hmi) as (e & He). congruence.
  - destruct (match_at line r false ptr) as [e|] eqn:Hm.
    + split; [apply (match_at_sound r false ptr e Hp Hm) | auto].
    + assert (Hn' : S ptr + n = length line) by lia.
      specialize (IH (S ptr) Hn').
      assert (Hnot : forall j, ~ matches line r ptr j).
      { intros j Hmi.
        destruct (match_at_complete r ptr j Hp Hmi) as (e & He). congruence. }
      destruct (sre_search line r n false (S ptr)) as [[s e]|].
      * destruct IH as (Hs & Hleft). split; auto.
        intros i j Hi Hmi. destruct (Nat.eq_dec i ptr) as [->|].
        -- exfalso. eapply Hnot; eauto.
        -- assert (s <= i); [|lia]. apply (Hleft i j); auto. lia.
      * intros i j Hi Hl Hmi. destruct (Nat.eq_dec i ptr) as [->|].
        -- eapply Hnot; eauto.
        -- apply (IH i j); auto. lia.
Qed.

End MatcherSemantics.

Lemma sre_search_sound line r n : forall must ptr s e,
  ptr + n <= length line ->
  sre_search line r n must ptr = Some (s, e) -> matches line r s e.
Proof.
  induction n as [|n IH]; intros must ptr s e Hn H; simpl in H.
  - destruct (match_at line r must ptr) as [e'|] eqn:Hm; [|discriminate].
    injection H as <- <-. apply (match_at_sound line r must ptr e'); auto. lia.
  - destruct (match_at line r must ptr) as [e'|] eqn:Hm.
    + injection H as <- <-. apply (match_at_sound line r must ptr e'); auto. lia.
    + apply IH in H; auto. lia.
Qed.

Lemma scan_sound r line fuel : forall sc ms,
  pos sc <= length line ->
  scan r line fuel sc = Some ms ->
  Forall (fun m => matches line r (start m) (end_ m)) ms.
Proof.
  induction fuel as [|fuel IH]; intros sc ms Hp H; simpl in H; [discriminate|].
  destruct (scanner_search r line sc) as [[m sc']|] eqn:Hs.
  - destruct (scan r line fuel sc') as [ms'|] eqn:Hscan; [|discriminate].
    injection H as <-.
    pose proof (scanner_search_step r line sc m sc' Hp Hs)
      as (_ & (_ & H2 & _) & _ & H4 & _).
    constructor.
    + unfold scanner_search in Hs.
      destruct (sre_search line r _ _ _) as [[s e]|] eqn:Hsearch; [|discriminate].
      injection Hs as <- <-. simpl.
      apply (sre_search_sound line r _ _ _ s e) in Hsearch; auto. lia.
    + apply (IH sc'); auto. rewrite H4. exact H2.
  - injection H as <-. constructor.
Qed.

(** X10. Every match that [finditer] reports is a match of the pattern:
    the pattern matches the line from the start offset to the end offset of
    the match, in the sense of the pattern alone. *)
Theorem finditer_sound (r : regex) (line : str) :
  Forall (fun m => matches line r (start m) (end_ m)) (finditer r line).
Proof.
  apply (scan_sound r line (2 * length line + 2) scanner_init).
  - simpl. lia.
  - apply finditer_scan.
Qed.

Lemma finditer_first r line :
  match sre_search line r (length line) false 0 with
  | Some (s, e) => exists ms, finditer r line
                              = {| start := s; end_ := e; group := slice line s e |} :: ms
  | None => finditer r line = []
  end.
Proof.
  pose proof (finditer_scan r line) as H.
  replace (2 * length line + 2) with (S (2 * length line + 1)) in H by lia.
  simpl in H. unfold scanner_search in H. simpl in H.
  rewrite Nat.sub_0_r in H.
  destruct (sre_search line r (length line) false 0) as [[s e]|].
  - destruct (scan r line _ _) as [ms|]; [|discriminate].
    injection H as <-. eauto.
  - injection H as <-. reflexivity.
Qed.

(** X11. [finditer] reports a match for a line exactly when the pattern
    matches somewhere in the line, so that a line appears in the plain
    listing exactly then; and the first match reported is leftmost: the
    pattern matches at no offset before its start. *)
Theorem finditer_finds_leftmost (r : regex) (line : str) :
  (finditer r line <> [] <-> matches_somewhere line r)
  /\ (forall m ms i j,
        finditer r line = m :: ms -> matches line r i j -> start m <= i).
Proof.
  pose proof (finditer_first r line) as Hf.
  pose proof (sre_search_leftmost line r (length line) 0 eq_refl) as Hl.
  destruct (sre_search line r (length line) false 0) as [[s e]|].
  - destruct Hf as (ms & Hf). destruct Hl as (Hm & Hleft). split.
    + split.
      * intros _. exists s, e. split; auto.
        pose proof (finditer_scanned r line) as H. rewrite Hf in H.
        destruct H as (_ & (H1 & H2 & _) & _). simpl in *. lia.
      * intros _. rewrite Hf. discriminate.
    + intros m ms' i j E Hmi. rewrite Hf in E. injection E as <- _.
      simpl. apply (Hleft i j); auto. lia.
  - split.
    + split.
      * intros H. contradiction.
      * intros (i & j & Hi & Hmi). exfalso. apply (Hl i j); auto. lia.
    + intros m ms i j E. rewrite Hf in E. discriminate.
Qed.

(** ** Patterns of plain characters *)

Lemma is_plain_tests c :
  is_plain c = true ->
  Ascii.eqb c "|" = false /\ Ascii.eqb c ")" = false
  /\ Ascii.eqb c backslash = false /\ is_repeat_char c = false
  /\ Ascii.eqb c "." = false /\ Ascii.eqb c "^" = false
  /\ Ascii.eqb c "$" = false /\ Ascii.eqb c "(" = false
  /\ Ascii.eqb c "[" = false /\ Ascii.eqb c "{" = false.
Proof.
  unfold is_plain. intros H. apply negb_true_iff in H.
  repeat (apply orb_false_elim in H; destruct H as (H & ?)).
  repeat split; assumption.
Qed.

Lemma parse_seq_plain text : forall fuel items,
  forallb is_plain text = true ->
  length text < fuel ->
  parse_seq fuel text items
  = Compiled (seq_of (rev (map Lit text) ++ items), []).
Proof.
  induction text as [|c text IH]; intros fuel items Hplain Hfuel;
    (destruct fuel as [|fuel]; [simpl in Hfuel; lia|]).
  - reflexivity.
  - simpl in Hplain. apply andb_prop in Hplain. destruct Hplain as (Hc & Hplain).
    apply is_plain_tests in Hc.
    destruct Hc as (H1 & H2 & H3 & H4 & H5 & H6 & H7 & H8 & H9 & H10).
    cbn [parse_seq].
    rewrite H1, H2, H3, H4, H5, H6, H7, H8, H9, H10. cbn [orb].
    rewrite IH; auto; [|simpl in Hfuel; lia].
    cbn [map rev]. rewrite <- app_assoc. reflexivity.
Qed.

Lemma compile_plain text :
  forallb is_plain text = true -> compile text = Compiled (literal text).
Proof.
  intros H. unfold compile, literal.
  replace (2 * length text + 2) with (S (2 * length text + 1)) by lia.
  cbn [parse_sub]. rewrite parse_seq_plain; auto; [|lia].
  rewrite app_nil_r. reflexivity.
Qed.

Lemma firstn_snoc_iff {A : Type} (n : nat) : forall (l a : list A) (c : A),
  length a = n ->
  firstn (S n) l = a ++ [c] <-> firstn n l = a /\ nth_error l n = Some c.
Proof.
  induction n as [|n IH]; intros l a c Ha.
  - destruct a; [|discriminate]. destruct l as [|x l]; simpl.
    + split; [discriminate | intros (_ & H); discriminate].
    + split.
      * intros H. injection H as ->. auto.
      * intros (_ & H). injection H as ->. reflexivity.
  - destruct a as [|y a]; [discriminate|].
    destruct l as [|x l].
    + simpl. split; [discriminate | intros (H & _); discriminate].
    + change (firstn (S (S n)) (x :: l)) with (x :: firstn (S n) l).
      change (firstn (S n) (x :: l)) with (x :: firstn n l).
      change (nth_error (x :: l) (S n)) with (nth_error l n).
      simpl in Ha. injection Ha as Ha.
      specialize (IH l a c Ha). simpl. split.
      * intros H. injection H as -> H. apply IH in H. destruct H as (-> & H).
        auto.
      * intros (H & Hn). injection H as -> H.
        f_equal. apply IH. auto.
Qed.

Lemma matches_lit_inv line c i j :
  matches line (Lit c) i j <-> nth_error line i = Some c /\ j = S i.
Proof.
  split.
  - intros H. inversion H; subst. auto.
  - intros (H & ->). constructor. exact H.
Qed.

Lemma matches_sequence line cs : forall tail i j,
  matches line (sequence (map Lit cs) tail) i j
  <-> firstn (length cs) (skipn i line) = rev cs
      /\ matches line tail (i + length cs) j.
Proof.
  induction cs as [|c cs IH]; intros tail i j.
  - simpl. rewrite Nat.add_0_r. tauto.
  - cbn [map sequence]. rewrite IH.
    cbn [rev length].
    rewrite (firstn_snoc_iff (length cs) (skipn i line) (rev cs) c)
      by apply length_rev.
    rewrite nth_error_skipn.
    replace (i + S (length cs)) with (S (i + length cs)) by lia.
    split.
    + intros (Hf & Hs). inversion Hs; subst.
      match goal with H : matches line (Lit c) _ _ |- _ =>
        apply matches_lit_inv in H; destruct H as (Hn & ->) end.
      auto.
    + intros ((Hf & Hn) & Ht). split; auto.
      eapply M_Seq; [|exact Ht]. constructor. exact Hn.
Qed.

(** A pattern of plain characters matches exactly the spans of the line
    that are equal to its text. *)
Lemma matches_literal line text i j :
  matches line (literal text) i j
  <-> j = i + length text /\ slice line i j = text.
Proof.
  unfold literal, slice. rewrite <- map_rev.
  destruct (rev text) as [|c cs] eqn:Hrev.
  - assert (text = []) as ->.
    { rewrite <- (rev_involutive text), Hrev. reflexivity. }
    simpl. split.
    + intros H. inversion H; subst. rewrite Nat.add_0_r, Nat.sub_diag. auto.
    + intros (-> & _). rewrite Nat.add_0_r. constructor.
  - assert (Htext : text = rev cs ++ [c]).
    { rewrite <- (rev_involutive text), Hrev. reflexivity. }
    cbn [map seq_of]. rewrite matches_sequence, matches_lit_inv.
    rewrite Htext, length_app, length_rev. simpl length.
    replace (length cs + 1) with (S (length cs)) by lia.
    split.
    + intros (Hf & Hn & ->). split; [lia|].
      replace (S (i + length cs) - i) with (S (length cs)) by lia.
      apply (firstn_snoc_iff (length cs)); [apply length_rev|].
      rewrite nth_error_skipn. auto.
    + intros (-> & Hf).
      replace (i + S (length cs) - i) with (S (length cs)) in Hf by lia.
      apply (firstn_snoc_iff (length cs)) in Hf; [|apply length_rev].
      destruct Hf as (Hf & Hn). rewrite nth_error_skipn in Hn.
      repeat split; auto.
Qed.

(** X12. A pattern text made of plain characters only always compiles, to
    the sequence of its characters; and searching a line for it reports a
    match exactly when the text occurs in the line. *)
Theorem plain_pattern_search (text : str) :
  forallb is_plain text = true ->
  compile text = Compiled (literal text)
  /\ forall line,
       finditer (literal text) line <> []
       <-> exists i, i <= length line /\ slice line i (i + length text) = text.
Proof.
  intros Hplain. split; [apply compile_plain, Hplain|].
  intros line.
  pose proof (finditer_first (literal text) line) as Hf.
  pose proof (sre_search_leftmost line (literal text) (length line) 0 eq_refl) as Hl.
  destruct (sre_search line (literal text) (length line) false 0) as [[s e]|].
  - destruct Hf as (ms & Hf). destruct Hl as (Hm & _). split.
    + intros _. apply matches_literal in Hm. destruct Hm as (-> & Hm).
      exists s. split; auto.
      pose proof (finditer_scanned (literal text) line) as H. rewrite Hf in H.
      destruct H as (_ & (H1 & H2 & _) & _). simpl in *. lia.
    + intros _. rewrite Hf. discriminate.
  - split.
    + intros H. contradiction.
    + intros (i & Hi & Hs). exfalso.
      apply (Hl i (i + length text)); auto; [lia|].
      apply matches_literal. auto.
Qed.

Lemma plain_pattern_search_witness :
  compile "id7" = Compiled (literal "id7")
  /\ forall line,
       finditer (literal "id7") line <> []
       <-> exists i, i <= length line
                     /\ slice line i (i + length (of_string "id7")) = of_string "id7".
Proof.
  apply (plain_pattern_search "id7"). reflexivity.
Defined.

(** * The output file *)

Lemma json_escape_char_printable c :
  forallb is_printable (json_escape_char c) = true.
Proof. destruct c as [[] [] [] [] [] [] [] []]; reflexivity. Qed.

Lemma json_string_printable x : forallb is_printable (json_string x) = true.
Proof.
  unfold json_string. cbn [forallb]. rewrite forallb_app.
  replace (forallb is_printable (flat_map json_escape_char x)) with true.
  - reflexivity.
  - symmetry. induction x as [|c x IH]; [reflexivity|].
    cbn [flat_map]. rewrite forallb_app, json_escape_char_printable, IH.
    reflexivity.
Qed.

(** X13. Whatever characters the file names and the matched texts hold,
    what the machine display writes for a line is plain ASCII: printable
    characters and line ends only. *)
Theorem json_dump_ascii (data : list str) :
  forallb (fun c => is_printable c || Ascii.eqb c newline) (json_dump data) = true.
Proof.
  assert (Hs : forall x,
             forallb (fun c => is_printable c || Ascii.eqb c newline)
               (json_string x) = true).
  { intros x. pose proof (json_string_printable x) as H.
    rewrite forallb_forall in *. intros c Hc. rewrite (H c Hc). reflexivity. }
  destruct data as [|x xs]; [reflexivity|].
  unfold json_dump. rewrite !forallb_app, Hs.
  replace (forallb (fun c => is_printable c || Ascii.eqb c newline)
             (flat_map (fun y => of_string "," ++ newline_indent ++ json_string y) xs))
    with true.
  - reflexivity.
  - symmetry. induction xs as [|y xs IH]; [reflexivity|].
    cbn [flat_map]. rewrite !forallb_app, Hs, IH. reflexivity.
Qed.

Lemma json_read_escape c : forall rest,
  json_read_string (json_escape_char c ++ rest)
  = cons_result c (json_read_string rest).
Proof. destruct c as [[] [] [] [] [] [] [] []]; intros rest; reflexivity. Qed.

Lemma json_read_string_dump x : forall rest,
  json_read_string (flat_map json_escape_char x ++ quote_char :: rest)
  = Some (x, rest).
Proof.
  induction x as [|c x IH]; intros rest; [reflexivity|].
  cbn [flat_map]. rewrite <- app_assoc, json_read_escape, IH. reflexivity.
Qed.

Lemma json_read_items_step fuel y rest :
  json_read_items (S fuel)
    ((of_string "," ++ newline_indent ++ json_string y) ++ rest)
  = match json_read_items fuel rest with
    | Some (items, rest') => Some (y :: items, rest')
    | None => None
    end.
Proof.
  unfold json_string. cbn [json_read_items].
  replace (expect (of_string "," ++ newline_indent ++ [quote_char])
             ((of_string "," ++ newline_indent
               ++ quote_char :: flat_map json_escape_char y ++ [quote_char])
              ++ rest))
    with (Some (flat_map json_escape_char y ++ quote_char :: rest)).
  - rewrite json_read_string_dump. reflexivity.
  - unfold expect. simpl. rewrite <- app_assoc. reflexivity.
Qed.

Lemma json_read_items_end fuel rest :
  json_read_items (S fuel) ([newline] ++ of_string "]" ++ rest) = Some ([], rest).
Proof. reflexivity. Qed.

Lemma json_read_items_dump xs : forall fuel rest,
  length xs < fuel ->
  json_read_items fuel
    (flat_map (fun y => of_string "," ++ newline_indent ++ json_string y) xs
     ++ [newline] ++ of_string "]" ++ rest)
  = Some (xs, rest).
Proof.
  induction xs as [|y xs IH]; intros fuel rest Hfuel;
    (destruct fuel as [|fuel]; [simpl in Hfuel; lia|]).
  - apply json_read_items_end.
  - cbn [flat_map]. rewrite <- app_assoc.
    rewrite json_read_items_step, IH; [reflexivity | simpl in Hfuel; lia].
Qed.

Lemma length_flat_map_ge {A B : Type} (f : A -> list B) (xs : list A) :
  (forall x, 1 <= length (f x)) -> length xs <= length (flat_map f xs).
Proof.
  intros Hf. induction xs as [|x xs IH]; simpl; [lia|].
  rewrite length_app. specialize (Hf x). lia.
Qed.

Lemma json_read_array_dump data rest :
  json_read_array (json_dump data ++ rest) = Some (data, rest).
Proof.
  destruct data as [|x xs]; [reflexivity|].
  unfold json_dump, json_string, json_read_array.
  replace (expect (of_string "[]") _) with (@None str) by reflexivity.
  replace (expect (of_string "[" ++ newline_indent ++ [quote_char])
             ((of_string "[" ++ newline_indent
               ++ (quote_char :: flat_map json_escape_char x ++ [quote_char])
               ++ flat_map (fun y => of_string "," ++ newline_indent
                                     ++ quote_char :: flat_map json_escape_char y
                                     ++ [quote_char]) xs
               ++ [newline] ++ of_string "]") ++ rest))
    with (Some (flat_map json_escape_char x
                ++ quote_char
                :: flat_map (fun y => of_string "," ++ newline_indent ++ json_string y) xs
                   ++ [newline] ++ of_string "]" ++ rest)).
  - rewrite json_read_string_dump, json_read_items_dump; [reflexivity|].
    rewrite length_app.
    assert (1 <= length ([newline] ++ of_string "]" ++ rest)) by (simpl; lia).
    assert (length xs <= length (flat_map (fun y => of_string "," ++ newline_indent
                                                    ++ json_string y) xs)).
    { apply length_flat_map_ge. intros y. simpl. lia. }
    lia.
  - unfold expect. simpl. rewrite <- !app_assoc. reflexivity.
Qed.

Lemma json_dump_cons data : exists t, json_dump data = "["%char :: t.
Proof. destruct data; eexists; reflexivity. Qed.

Lemma json_read_arrays_dump datas : forall fuel,
  length datas <= fuel ->
  json_read_arrays fuel (concat (map json_dump datas)) = Some datas.
Proof.
  induction datas as [|data datas IH]; intros fuel Hfuel.
  - destruct fuel; reflexivity.
  - destruct fuel as [|fuel]; [simpl in Hfuel; lia|].
    cbn [map concat].
    assert (E : json_read_arrays (S fuel) (json_dump data ++ concat (map json_dump datas))
                = match json_read_array (json_dump data ++ concat (map json_dump datas)) with
                  | Some (d, rest) =>
                      match json_read_arrays fuel rest with
                      | Some ds => Some (d :: ds)
                      | None => None
                      end
                  | None => None
                  end).
    { destruct (json_dump_cons data) as (t & ->). reflexivity. }
    rewrite E, json_read_array_dump, IH; [reflexivity | simpl in Hfuel; lia].
Qed.

Lemma length_concat_dump datas :
  length datas <= length (concat (map json_dump datas)).
Proof.
  induction datas as [|data datas IH]; simpl; [lia|].
  rewrite length_app. destruct (json_dump_cons data) as (t & ->). simpl. lia.
Qed.

(** X14. The output file can be read back: what a source appends with the
    machine display, one array after the other without anything between
    them, is read by a reader of JSON arrays as exactly the lists of record
    strings of its lines, in order; no record string is lost or changed by
    the way it is written. *)
Theorem machine_run_reads_back (p : regex) (names : option (list str))
    (file : list str) (file_name : str) (w : World) :
  exists text,
    search_matches (finder p names false false true) file file_name w
    = (Return tt, wrote w [] text)
    /\ json_read_file text = Some (records_of p file_name file).
Proof.
  exists (concat (map json_dump (records_of p file_name file))). split.
  - unfold search_matches.
    rewrite (for_each_wrote _ (fun _ => [])
               (fun '(line_no, raw) =>
                  json_dump (map (fun m => record_string file_name line_no
                                             (start m) (group m))
                                 (finditer p (remove_newlines raw))))).
    + rewrite concat_map_nil. unfold records_of. rewrite map_map.
      do 3 f_equal. apply map_ext. intros [line_no raw]. reflexivity.
    + intros [line_no raw] w'. apply append_wrote.
  - unfold json_read_file. apply json_read_arrays_dump.
    apply length_concat_dump.
Qed.

(** * Line breaks *)

Lemma remove_newlines_one_line raw : one_line (remove_newlines raw).
Proof.
  unfold one_line, remove_newlines. intros H. apply filter_In in H.
  destruct H as (_ & H). rewrite Ascii.eqb_refl in H. discriminate.
Qed.

Lemma in_firstn {A : Type} (x : A) n l : In x (firstn n l) -> In x l.
Proof.
  intros H. rewrite <- (firstn_skipn n l). apply in_or_app. auto.
Qed.

Lemma in_skipn {A : Type} (x : A) n l : In x (skipn n l) -> In x l.
Proof.
  intros H. rewrite <- (firstn_skipn n l). apply in_or_app. auto.
Qed.

Lemma one_line_slice line a b : one_line line -> one_line (slice line a b).
Proof.
  unfold one_line, slice. intros H Hin. apply H.
  apply in_firstn in Hin. apply in_skipn in Hin. exact Hin.
Qed.

Lemma one_line_app x y : one_line x -> one_line y -> one_line (x ++ y).
Proof.
  unfold one_line. intros Hx Hy H. apply in_app_or in H. tauto.
Qed.

Lemma one_line_uint d :
  one_line (of_string (NilEmpty.string_of_uint d)).
Proof.
  unfold one_line.
  induction d; simpl; intros H; try (destruct H as [H|H]; [discriminate|]); auto.
Qed.

Lemma one_line_str_of_nat n : one_line (str_of_nat n).
Proof.
  unfold str_of_nat, NilZero.string_of_uint.
  destruct (Nat.to_uint n) eqn:E; try (rewrite <- E; apply one_line_uint).
  unfold one_line. simpl. intros [H|[]]. discriminate.
Qed.

Lemma finditer_one_line r raw :
  Forall (fun m => one_line (group m)) (finditer r (remove_newlines raw)).
Proof.
  pose proof (scanned_match_of _ _ _ _ (finditer_scanned r (remove_newlines raw)))
    as H.
  eapply Forall_impl; [|exact H].
  intros m (_ & _ & ->). apply one_line_slice, remove_newlines_one_line.
Qed.

(** X15. The line that is searched holds no line break, whatever the line
    read held, and so neither does any matched text.  Hence, for a source
    whose name holds no line break, every entry that the plain listing
    prints is one line: a text without line break, and the line end. *)
Theorem default_entries_one_line (p : regex) (names : option (list str))
    (file : list str) (file_name : str) (w : World) :
  one_line file_name ->
  (forall raw, In raw file ->
     one_line (remove_newlines raw)
     /\ Forall (fun m => one_line (group m)) (finditer p (remove_newlines raw)))
  /\ exists chunks,
       search_matches (finder p names false false false) file file_name w
       = (Return tt, wrote w chunks [])
       /\ Forall (fun chunk => exists text,
                    chunk = text ++ [newline] /\ one_line text) chunks.
Proof.
  intros Hname. split.
  - intros raw _. split; [apply remove_newlines_one_line | apply finditer_one_line].
  - eexists. split.
    + unfold search_matches.
      rewrite (for_each_wrote _
                 (fun '(line_no, raw) =>
                    map (fun m => default_line file_name line_no (group m) ++ [newline])
                        (finditer p (remove_newlines raw)))
                 (fun _ => [])).
      * rewrite concat_map_nil. reflexivity.
      * intros [line_no raw] w'.
        apply (for_each_print (fun m => default_line file_name line_no (group m))).
    + apply Forall_concat. apply Forall_map.
      apply Forall_forall. intros [line_no raw] _.
      apply Forall_map.
      eapply Forall_impl; [|apply (finditer_one_line p raw)].
      intros m Hm. exists (default_line file_name line_no (group m)).
      split; [reflexivity|].
      unfold default_line.
      repeat apply one_line_app; auto using one_line_str_of_nat;
        unfold one_line; simpl; intuition discriminate.
Qed.

Lemma default_entries_one_line_witness :
  exists chunks,
    search_matches (finder (Plus Digit) None false false false)
      [of_string "id7 and 88" ++ [newline]; of_string "x1"] "a.txt" empty_world
    = (Return tt, wrote empty_world chunks [])
    /\ Forall (fun chunk => exists text,
                 chunk = text ++ [newline] /\ one_line text) chunks.
Proof.
  apply (default_entries_one_line (Plus Digit) None
           [of_string "id7 and 88" ++ [newline]; of_string "x1"] "a.txt"
           empty_world).
  unfold one_line. simpl. intuition discriminate.
Defined.

(** * The empty pattern *)

Lemma scanner_search_empty_next line i :
  i < length line ->
  scanner_search Empty line {| pos := i; must_advance := true |}
  = Some (empty_match (S i), {| pos := S i; must_advance := true |}).
Proof.
  intros Hi. unfold scanner_search. cbn [pos must_advance].
  destruct (length line - i) as [|n] eqn:Hn; [lia|].
  cbn [sre_search]. unfold match_at. cbn [sre_match]. unfold success.
  rewrite !Nat.eqb_refl. cbn [andb].
  destruct n; cbn [sre_search]; unfold match_at; cbn [sre_match]; unfold success;
    cbn [andb]; unfold slice, empty_match;
    rewrite Nat.sub_diag, (Nat.eqb_refl (S i)); reflexivity.
Qed.

Lemma scanner_search_empty_last line :
  scanner_search Empty line {| pos := length line; must_advance := true |} = None.
Proof.
  unfold scanner_search. cbn [pos must_advance]. rewrite Nat.sub_diag.
  cbn [sre_search]. unfold match_at. cbn [sre_match]. unfold success.
  rewrite Nat.eqb_refl. reflexivity.
Qed.

Lemma scan_empty line n : forall i fuel,
  i + n = length line -> n < fuel ->
  scan Empty line fuel {| pos := i; must_advance := true |}
  = Some (map empty_match (seq (S i) n)).
Proof.
  induction n as [|n IH]; intros i fuel Hn Hfuel;
    (destruct fuel as [|fuel]; [lia|]); cbn [scan].
  - replace i with (length line) by lia.
    rewrite scanner_search_empty_last. reflexivity.
  - rewrite scanner_search_empty_next by lia.
    rewrite (IH (S i) fuel) by lia. reflexivity.
Qed.

(** X16. The empty pattern compiles and matches at every offset of a line,
    the offset after its last character included: for a line of [n]
    characters [finditer] yields [n + 1] empty matches, at the offsets
    0, 1, ..., [n] in order. *)
Theorem empty_pattern_matches_everywhere (line : str) :
  compile [] = Compiled Empty
  /\ finditer Empty line = map empty_match (seq 0 (S (length line))).
Proof.
  split; [reflexivity|].
  pose proof (finditer_scan Empty line) as H.
  replace (2 * length line + 2) with (S (2 * length line + 1)) in H by lia.
  cbn [scan] in H.
  assert (E : scanner_search Empty line scanner_init
              = Some (empty_match 0, {| pos := 0; must_advance := true |})).
  { unfold scanner_search, scanner_init. cbn [pos must_advance].
    destruct (length line - 0); reflexivity. }
  rewrite E in H.
  rewrite (scan_empty line (length line) 0) in H by lia.
  injection H as <-. reflexivity.
Qed.

(** * Runs over several files *)

Lemma search_matches_default p names file file_name w :
  search_matches (finder p names false false false) file file_name w
  = (Return tt, wrote w (default_entries p file_name file) []).
Proof.
  unfold search_matches, default_entries.
  rewrite (for_each_wrote _
             (fun '(line_no, raw) =>
                map (fun m => default_line file_name line_no (group m) ++ [newline])
                    (finditer p (remove_newlines raw)))
             (fun _ => [])).
  - rewrite concat_map_nil, flat_map_concat_map. reflexivity.
  - intros [line_no raw] w'.
    apply (for_each_print (fun m => default_line file_name line_no (group m))).
Qed.

Lemma default_files_loop env p fnames names : forall w,
  Forall (fun name => file_system env name <> None) names ->
  for_each names (fun file_name =>
    match file_system env file_name with
    | None => print (of_string "File not found error: " ++ file_name) ;; exit
    | Some file =>
        open_read file_name ;;
        search_matches (finder p fnames false false false) file file_name
    end) w
  = (Return tt,
     {| stdout := stdout w
                  ++ flat_map (fun name => default_entries p name (lines_of env name))
                       names;
        json_output_file := json_output_file w;
        opened := opened w ++ names |}).
Proof.
  induction names as [|name names IH]; intros w H.
  - simpl. rewrite !app_nil_r. destruct w. reflexivity.
  - inversion H as [|? ? Hname Hnames]; subst.
    cbn [for_each flat_map]. unfold lines_of at 1.
    destruct (file_system env name) as [file|] eqn:Hfs; [|congruence].
    unfold bind at 1. unfold bind at 1. cbn [open_read].
    rewrite search_matches_default. rewrite (IH _ Hnames).
    cbn [wrote stdout json_output_file opened].
    rewrite app_nil_r, <- !app_assoc. reflexivity.
Qed.

(** X17. With the plain listing and files that all exist, a run prints the
    entries of the files in the order in which the files are named, each
    file's entries under its own name and under line numbers that begin
    again at 1; it opens the files in that order, writes nothing to the
    output file and ends normally. *)
Theorem default_run_files (env : Env) (args : Args) (p : regex)
    (names : list str) (w : World) :
  compile (regular_expression args) = Compiled p ->
  arg_files args = Some names ->
  arg_underscore args = false -> arg_color args = false ->
  arg_machine args = false ->
  Forall (fun name => file_system env name <> None) names ->
  main env args w
  = (Return tt,
     {| stdout := stdout w
                  ++ flat_map (fun name => default_entries p name (lines_of env name))
                       names;
        json_output_file := json_output_file w;
        opened := opened w ++ names |}).
Proof.
  intros Hp Hfiles Hu Hc Hm Hnames.
  unfold main. rewrite Hp, Hu, Hc, Hm. unfold get_content. cbn [files].
  rewrite Hfiles.
  apply (default_files_loop env p (arg_files args) names w Hnames).
Qed.

Lemma default_run_files_witness :
  main example_env (example_args "\d+" (Some [of_string "a.txt"; of_string "a.txt"]))
    empty_world
  = (Return tt,
     {| stdout :=
          [of_string "file name: a.txt, line: 1, matched_text: 7" ++ [newline];
           of_string "file name: a.txt, line: 1, matched_text: 88" ++ [newline];
           of_string "file name: a.txt, line: 3, matched_text: 1" ++ [newline];
           of_string "file name: a.txt, line: 1, matched_text: 7" ++ [newline];
           of_string "file name: a.txt, line: 1, matched_text: 88" ++ [newline];
           of_string "file name: a.txt, line: 3, matched_text: 1" ++ [newline]];
        json_output_file := [];
        opened := [of_string "a.txt"; of_string "a.txt"] |}).
Proof.
  apply (default_run_files example_env
           (example_args "\d+" (Some [of_string "a.txt"; of_string "a.txt"]))
           (Plus Digit) [of_string "a.txt"; of_string "a.txt"] empty_world);
    try reflexivity.
  repeat constructor; discriminate.
Defined.

Lemma finditer_finds_leftmost_witness : finditer (Plus Digit) "id7" <> [].
Proof.
  apply (proj1 (finditer_finds_leftmost (Plus Digit) "id7")).
  exists 2, 3. split; [simpl; lia|].
  eapply M_Plus; [eapply M_Digit; reflexivity | apply M_Star0].
Defined.
